(** * Subharmonic generator: quantizer, encoder menu, mixer, capture buffer

    A shallow embedding of [subharmonicon.cpp] (its later revision: 25
    scales, a clamped MIDI pitch, a debounced encoder press, the encoder
    polled from the main loop) and the properties of its four parts:
    [Quantize], [UpdateEncoder], and, inside [AudioCallback], the oscillator
    mix and the write into the waveform buffers; then of [MidiToFrequency],
    of whole blocks of [AudioCallback] and of [UpdateDisplay], whose calls
    on the display driver are kept as a list.  The earlier revision of
    the file differs in three places that matter here (3 scales, no clamp in
    [Quantize], no debounce in [UpdateEncoder]); module [Earlier] holds its
    [UpdateEncoder].

    Numbers.  The program computes on binary32 [float]s.  Here a [float] is a
    real number and every operation is exact: [log2f] is the real base-2
    logarithm, [powf] the real power, [floorf] the real floor.  The root
    note and the candidate pitches of [Quantize] are whole numbers far below
    2^24, exact in binary32 too; what the program rounds and the model does
    not are the pitch of the input, its distances to the candidates, and the
    frequency returned.  For that reason the theorems on which note
    [Quantize] keeps are stated on [quantized_note], over the pitch its
    first line has computed, whatever it is, and not over the frequency the
    pitch came from; they ask for a pitch that is not negative, as every
    pitch of an audible frequency is.  [MidiToFrequency] is only compared
    on the notes 0 to 127, with a margin no rounding fills.
    [size_t] values are natural numbers (every index of the program stays
    below 128, far from the wrap-around of the type); the [int] root note is
    an integer, and its conversion to [size_t] in the mixed expressions of
    [UpdateEncoder] is written out. *)

From Stdlib Require Import Reals ZArith List Bool Lia Lra Sorted.
From stdpp Require Import base list strings pretty.
Import ListNotations.

Open Scope R_scope.

(** ** Constants and tables *)

Definition kNumSubharmonics : nat := 4.
Definition kWaveformBufferSize : nat := 128.
Definition kNumScales : nat := 25.
Definition kNumNotes : Z := 12.
Definition kNumOctaves : Z := 9.

(** The scale table.  The entries are [float]s in the source; all of them are
    whole numbers, kept here as integers and injected where they are used. *)
Definition scales : list (list Z) :=
  [ [0; 2; 4; 5; 7; 9; 11];
    [0; 2; 3; 5; 7; 8; 10];
    [0; 2; 5; 7; 9];
    [0; 2; 3; 5; 7; 9; 10];
    [0; 1; 3; 5; 7; 8; 10];
    [0; 2; 4; 6; 7; 9; 11];
    [0; 2; 4; 5; 7; 9; 10];
    [0; 1; 3; 5; 6; 8; 10];
    [0; 2; 4; 6; 8; 10];
    [0; 1; 2; 3; 4; 5; 6; 7; 8; 9; 10; 11];
    [0; 3; 5; 6; 7; 10];
    [0; 2; 3; 5; 7; 8; 11];
    [0; 2; 3; 5; 7; 9; 11];
    [0; 1; 4; 5; 7; 8; 11];
    [0; 1; 4; 5; 7; 8; 10];
    [0; 1; 4; 5; 7; 8; 11];
    [0; 1; 3; 6; 7; 10];
    [0; 1; 4; 5; 7; 9; 11];
    [0; 1; 5; 7; 8; 11];
    [0; 1; 3; 5; 7; 8; 10];
    [0; 1; 4; 5; 7; 9; 11];
    [0; 2; 4; 5; 7; 9; 10; 11];
    [0; 2; 3; 5; 7; 9; 10; 11];
    [0; 2; 4; 5; 8; 9; 11];
    [0; 2; 4; 5; 7; 9; 10] ]%Z.

Definition subharmonic_ratios : list R := [2; 3; 4; 5].

(** [scales[current_scale_idx]]: indexing a [std::vector] outside its bounds
    is undefined in the source; the model answers the empty scale there, and
    every statement below keeps the index inside the table. *)
Definition scale_at (current_scale_idx : nat) : list Z :=
  nth current_scale_idx scales [].

(** ** The quantizer *)

Module Quantizer.

Definition log2f (x : R) : R := ln x / ln 2.

Definition powf (x y : R) : R := Rpower x y.

Definition floorf (x : R) : R := IZR (Int_part x).

(** [static_cast<int>]: truncation towards zero. *)
Definition int_of_float (x : R) : Z :=
  if Rlt_dec x 0 then (- Int_part (- x))%Z else Int_part x.

Definition MidiToFrequency (midi_note : Z) : R :=
  440 * powf 2 ((IZR midi_note - 69) / 12).

(** The first statement of [Quantize]: the pitch of a frequency. *)
Definition midi_of_freq (freq : R) : R := 12 * log2f (freq / 440) + 69.

(** The right-hand side of [candidate] in the loop. *)
Definition candidate (midi_note root_midi : R) (note : Z) : R :=
  floorf (midi_note / 12) * 12 + IZR note + root_midi.

(** One turn of the loop, on the candidate pitch already computed. *)
Definition closer (midi_note closest cand : R) : R :=
  if Rlt_dec (Rabs (midi_note - cand)) (Rabs (midi_note - closest))
  then cand else closest.

(** The loop, from any value of [closest], over candidate pitches. *)
Definition scan (midi_note : R) (cands : list R) (closest : R) : R :=
  fold_left (closer midi_note) cands closest.

(** [closest] when the loop is left: it starts from the root note. *)
Definition closest_note (midi_note : R) (current_scale_idx : nat)
    (root_note_midi : Z) : R :=
  let root_midi := IZR root_note_midi in
  scan midi_note
    (map (candidate midi_note root_midi) (scale_at current_scale_idx))
    root_midi.

(** The pitch handed to [MidiToFrequency]. *)
Definition quantized_note (midi_note : R) (current_scale_idx : nat)
    (root_note_midi : Z) : Z :=
  let closest := closest_note midi_note current_scale_idx root_note_midi in
  let closest := Rmax 0 (Rmin 127 closest) in
  int_of_float closest.

(** [Quantize], with the two globals it reads as arguments. *)
Definition Quantize (freq : R) (current_scale_idx : nat)
    (root_note_midi : Z) : R :=
  MidiToFrequency
    (quantized_note (midi_of_freq freq) current_scale_idx root_note_midi).

End Quantizer.

(** ** The encoder and the menu *)

Module UI.

Inductive DisplayMode := WAVEFORM | XY.

Inductive MenuState := SCALE_SELECTION | ROOT_NOTE_SELECTION.

(** What one call of [UpdateEncoder] reads from [patch.encoder]. *)
Record Encoder := {
  RisingEdge : bool;
  Increment : Z;
  Pressed : bool
}.

(** The globals [UpdateEncoder] reads and writes. *)
Record State := {
  current_scale_idx : nat;
  root_note_midi : Z;
  display_mode : DisplayMode;
  menu_state : MenuState;
  menu_active : bool;
  last_encoder_pressed : bool
}.

Definition initial : State := {|
  current_scale_idx := 0;
  root_note_midi := 69;
  display_mode := WAVEFORM;
  menu_state := SCALE_SELECTION;
  menu_active := false;
  last_encoder_pressed := false
|}.

Definition with_scale (i : nat) (st : State) : State :=
  {| current_scale_idx := i; root_note_midi := root_note_midi st;
     display_mode := display_mode st; menu_state := menu_state st;
     menu_active := menu_active st;
     last_encoder_pressed := last_encoder_pressed st |}.

Definition with_root (r : Z) (st : State) : State :=
  {| current_scale_idx := current_scale_idx st; root_note_midi := r;
     display_mode := display_mode st; menu_state := menu_state st;
     menu_active := menu_active st;
     last_encoder_pressed := last_encoder_pressed st |}.

Definition with_display (d : DisplayMode) (st : State) : State :=
  {| current_scale_idx := current_scale_idx st;
     root_note_midi := root_note_midi st;
     display_mode := d; menu_state := menu_state st;
     menu_active := menu_active st;
     last_encoder_pressed := last_encoder_pressed st |}.

Definition with_menu_state (m : MenuState) (st : State) : State :=
  {| current_scale_idx := current_scale_idx st;
     root_note_midi := root_note_midi st;
     display_mode := display_mode st; menu_state := m;
     menu_active := menu_active st;
     last_encoder_pressed := last_encoder_pressed st |}.

Definition with_menu_active (b : bool) (st : State) : State :=
  {| current_scale_idx := current_scale_idx st;
     root_note_midi := root_note_midi st;
     display_mode := display_mode st; menu_state := menu_state st;
     menu_active := b;
     last_encoder_pressed := last_encoder_pressed st |}.

Definition with_last_pressed (b : bool) (st : State) : State :=
  {| current_scale_idx := current_scale_idx st;
     root_note_midi := root_note_midi st;
     display_mode := display_mode st; menu_state := menu_state st;
     menu_active := menu_active st;
     last_encoder_pressed := b |}.

Definition other_display (d : DisplayMode) : DisplayMode :=
  match d with WAVEFORM => XY | XY => WAVEFORM end.

Definition other_page (m : MenuState) : MenuState :=
  match m with
  | SCALE_SELECTION => ROOT_NOTE_SELECTION
  | ROOT_NOTE_SELECTION => SCALE_SELECTION
  end.

(** An [int] converted to the 32-bit [size_t] of the target. *)
Definition size_t_of_int (z : Z) : Z := (z mod 2 ^ 32)%Z.

(** [(root_note_midi + 1) % (kNumNotes * kNumOctaves)]: the sum is an [int],
    the modulus a [size_t], so the sum is converted before the division. *)
Definition root_up (root : Z) : Z :=
  (size_t_of_int (root + 1) mod (kNumNotes * kNumOctaves))%Z.

(** [(root_note_midi + (kNumNotes * kNumOctaves) - 1) % (kNumNotes * kNumOctaves)],
    all of it in [size_t]. *)
Definition root_down (root : Z) : Z :=
  (size_t_of_int (size_t_of_int root + kNumNotes * kNumOctaves - 1)
   mod (kNumNotes * kNumOctaves))%Z.

Definition scale_up (i : nat) : nat := ((i + 1) mod kNumScales)%nat.

Definition scale_down (i : nat) : nat :=
  ((i + kNumScales - 1) mod kNumScales)%nat.

(** The body of [if (patch.encoder.RisingEdge())]. *)
Definition toggle_menu (st : State) : State :=
  let st := with_menu_active (negb (menu_active st)) st in
  if negb (menu_active st) then with_display WAVEFORM st else st.

(** The two increment branches taken while the menu is shown. *)
Definition turn_in_menu (encoder_increment : Z) (st : State) : State :=
  if (encoder_increment >? 0)%Z then
    match menu_state st with
    | SCALE_SELECTION => with_scale (scale_up (current_scale_idx st)) st
    | ROOT_NOTE_SELECTION => with_root (root_up (root_note_midi st)) st
    end
  else if (encoder_increment <? 0)%Z then
    match menu_state st with
    | SCALE_SELECTION => with_scale (scale_down (current_scale_idx st)) st
    | ROOT_NOTE_SELECTION => with_root (root_down (root_note_midi st)) st
    end
  else st.

(** The debounced press, also inside the menu branch. *)
Definition press_in_menu (pressed : bool) (st : State) : State :=
  if pressed && negb (last_encoder_pressed st) then
    with_last_pressed true (with_menu_state (other_page (menu_state st)) st)
  else if negb pressed then with_last_pressed false st
  else st.

(** The branch taken while the menu is hidden. *)
Definition turn_in_view (encoder_increment : Z) (st : State) : State :=
  if negb (encoder_increment =? 0)%Z
  then with_display (other_display (display_mode st)) st
  else st.

Definition UpdateEncoder (enc : Encoder) (st : State) : State :=
  let st := if RisingEdge enc then toggle_menu st else st in
  let encoder_increment := Increment enc in
  if menu_active st then
    press_in_menu (Pressed enc) (turn_in_menu encoder_increment st)
  else
    turn_in_view encoder_increment st.

(** Successive calls, one per pass of the main loop. *)
Definition run (encs : list Encoder) (st : State) : State :=
  fold_left (fun st enc => UpdateEncoder enc st) encs st.

(** The states the program can be in. *)
Inductive reachable : State -> Prop :=
  | reachable_initial : reachable initial
  | reachable_step enc st :
      reachable st -> reachable (UpdateEncoder enc st).

Definition page_eqb (a b : MenuState) : bool :=
  match a, b with
  | SCALE_SELECTION, SCALE_SELECTION => true
  | ROOT_NOTE_SELECTION, ROOT_NOTE_SELECTION => true
  | _, _ => false
  end.

(** For each call of a run, whether it changed the menu page. *)
Fixpoint page_flips (encs : list Encoder) (st : State) : list bool :=
  match encs with
  | [] => []
  | enc :: encs =>
      let st' := UpdateEncoder enc st in
      negb (page_eqb (menu_state st') (menu_state st)) :: page_flips encs st'
  end.

(** The presses of a sequence of button levels: the places where the level
    is up and the level before it (at first [prev]) was down. *)
Fixpoint press_edges (prev : bool) (levels : list bool) : list bool :=
  match levels with
  | [] => []
  | p :: levels => (p && negb prev) :: press_edges p levels
  end.

(** The detents of a run, counted with their sign: a call moves a menu
    selection by one place whatever the size of its increment. *)
Definition net_turns (encs : list Encoder) : Z :=
  fold_right (fun enc n => (Z.sgn (Increment enc) + n)%Z) 0%Z encs.

(** The selections stay inside their tables. *)
Definition in_range (st : State) : Prop :=
  (current_scale_idx st < kNumScales)%nat /\
  (0 <= root_note_midi st < kNumNotes * kNumOctaves)%Z.

(** A call that reads neither a click nor the button down. *)
Definition quiet (enc : Encoder) : Prop :=
  RisingEdge enc = false /\ Pressed enc = false.

(** A call that reads nothing but a click. *)
Definition click (pressed : bool) : Encoder :=
  {| RisingEdge := true; Increment := 0; Pressed := pressed |}.

(** A call that reads nothing but a turn of the knob. *)
Definition turn (inc : Z) : Encoder :=
  {| RisingEdge := false; Increment := inc; Pressed := false |}.

(** A call during which the button is held and nothing else happens. *)
Definition held : Encoder :=
  {| RisingEdge := false; Increment := 0; Pressed := true |}.

End UI.

(** ** The earlier revision *)

(** [UpdateEncoder] as the first listing of the file has it.  Its scale
    table is the first three rows of the later one; it reads [Increment()]
    in place, where the later one reads it once; and it has no
    [last_encoder_pressed]: the field is carried along unchanged.  (Its
    [Quantize] is the loop above without the two calls that bound the
    pitch.) *)
Module Earlier.

Definition kNumScales : nat := 3.

Definition scale_up (i : nat) : nat := ((i + 1) mod kNumScales)%nat.

Definition scale_down (i : nat) : nat :=
  ((i + kNumScales - 1) mod kNumScales)%nat.

Definition turn_in_menu (increment : Z) (st : UI.State) : UI.State :=
  if (increment >? 0)%Z then
    match UI.menu_state st with
    | UI.SCALE_SELECTION =>
        UI.with_scale (scale_up (UI.current_scale_idx st)) st
    | UI.ROOT_NOTE_SELECTION =>
        UI.with_root (UI.root_up (UI.root_note_midi st)) st
    end
  else if (increment <? 0)%Z then
    match UI.menu_state st with
    | UI.SCALE_SELECTION =>
        UI.with_scale (scale_down (UI.current_scale_idx st)) st
    | UI.ROOT_NOTE_SELECTION =>
        UI.with_root (UI.root_down (UI.root_note_midi st)) st
    end
  else st.

(** The press, read as a level. *)
Definition press_in_menu (pressed : bool) (st : UI.State) : UI.State :=
  if pressed then UI.with_menu_state (UI.other_page (UI.menu_state st)) st
  else st.

Definition UpdateEncoder (enc : UI.Encoder) (st : UI.State) : UI.State :=
  let st := if UI.RisingEdge enc then UI.toggle_menu st else st in
  if UI.menu_active st then
    press_in_menu (UI.Pressed enc) (turn_in_menu (UI.Increment enc) st)
  else
    UI.turn_in_view (UI.Increment enc) st.

End Earlier.

(** ** The oscillator bank, the mix and the waveform buffers *)

(** The tone generator of the DSP library, as far as [AudioCallback] uses
    it: both calls change the oscillator, [Process] also hands a sample. *)
Class Oscillator (Osc : Type) := {
  SetFreq : R -> Osc -> Osc;
  Process : Osc -> R * Osc
}.

Module Audio.

(** [osc_buffer_l], [osc_buffer_r] and [buffer_index]. *)
Record Waveform := {
  osc_buffer_l : list R;
  osc_buffer_r : list R;
  buffer_index : nat
}.

Definition initial : Waveform := {|
  osc_buffer_l := replicate kWaveformBufferSize 0;
  osc_buffer_r := replicate kWaveformBufferSize 0;
  buffer_index := 0
|}.

(** The three statements that store one stereo sample. *)
Definition store (mix_l mix_r : R) (w : Waveform) : Waveform := {|
  osc_buffer_l := <[buffer_index w := mix_l]> (osc_buffer_l w);
  osc_buffer_r := <[buffer_index w := mix_r]> (osc_buffer_r w);
  buffer_index := ((buffer_index w + 1) mod kWaveformBufferSize)%nat
|}.

Definition store_all (samples : list (R * R)) (w : Waveform) : Waveform :=
  fold_left (fun w s => store (fst s) (snd s) w) samples w.

(** Both arrays have their declared size and the index is inside them. *)
Definition well_formed (w : Waveform) : Prop :=
  length (osc_buffer_l w) = kWaveformBufferSize /\
  length (osc_buffer_r w) = kWaveformBufferSize /\
  (buffer_index w < kWaveformBufferSize)%nat.

Section Bank.
Context {Osc : Type} `{Oscillator Osc}.

(** The loop over [j], from index [j] on, over the oscillators paired with
    their ratios. *)
Fixpoint mix_from (j : nat) (freq : R) (bank : list (Osc * R))
    (mix_l mix_r : R) : list Osc * (R * R) :=
  match bank with
  | [] => ([], (mix_l, mix_r))
  | (osc, ratio) :: bank =>
      let osc := SetFreq (freq / ratio) osc in
      let '(sig, osc) := Process osc in
      let '(mix_l, mix_r) :=
        if (j mod 2 =? 0)%nat then (mix_l + sig, mix_r)
        else (mix_l, mix_r + sig) in
      let '(oscs, mix) := mix_from (S j) freq bank mix_l mix_r in
      (osc :: oscs, mix)
  end.

(** One frame up to the two scaled sums. *)
Definition mix (freq : R) (subharmonics : list Osc)
    : list Osc * (R * R) :=
  let '(oscs, (mix_l, mix_r)) :=
    mix_from 0 freq (combine subharmonics subharmonic_ratios) 0 0 in
  (oscs, (mix_l * 0.5, mix_r * 0.5)).

(** One turn of the loop over [i]: [pitch_cv] is what the pitch control
    reads, the result the new state and the frame written to [out]. *)
Definition frame (current_scale_idx : nat) (root_note_midi : Z)
    (pitch_cv : R) (st : list Osc * Waveform)
    : (list Osc * Waveform) * (R * R) :=
  let freq :=
    Quantizer.Quantize (20 + pitch_cv * 1980)
      current_scale_idx root_note_midi in
  let '(oscs, (mix_l, mix_r)) := mix freq (fst st) in
  ((oscs, store mix_l mix_r (snd st)), (mix_l, mix_r)).

(** [AudioCallback] on a block, given the control readings of its frames:
    the state after it and the frames written, in order. *)
Fixpoint AudioCallback (current_scale_idx : nat) (root_note_midi : Z)
    (pitch_cvs : list R) (st : list Osc * Waveform)
    : (list Osc * Waveform) * list (R * R) :=
  match pitch_cvs with
  | [] => (st, [])
  | pitch_cv :: pitch_cvs =>
      let '(st, out) := frame current_scale_idx root_note_midi pitch_cv st in
      let '(st, outs) :=
        AudioCallback current_scale_idx root_note_midi pitch_cvs st in
      (st, out :: outs)
  end.

(** The sample oscillator [osc] gives once it is tuned to [freq]. *)
Definition sample_at (freq : R) (osc : Osc) : R :=
  fst (Process (SetFreq freq osc)).

Definition advanced (freq : R) (osc : Osc) : Osc :=
  snd (Process (SetFreq freq osc)).

End Bank.

End Audio.

(** ** The display *)

Module Display.

Inductive Font := Font_7x10.

(** The calls [UpdateDisplay] makes on [patch.display], with their
    arguments. *)
Inductive Draw :=
  | Fill (on : bool)
  | SetCursor (x y : Z)
  | WriteString (str : string) (font : Font) (on : bool)
  | DrawLine (x1 y1 x2 y2 : Z) (on : bool)
  | DrawPixel (x y : Z) (on : bool)
  | Update.

Definition scale_names : list string :=
  [ "Major"; "Minor"; "Pentatonic"; "Dorian"; "Phrygian"; "Lydian";
    "Mixolydian"; "Locrian"; "Whole Tone"; "Chromatic"; "Blues";
    "Harmonic Minor"; "Melodic Minor"; "Hungarian Minor";
    "Phrygian Dominant"; "Double Harmonic"; "Enigmatic"; "Persian";
    "Japanese"; "Neopolitan Minor"; "Neopolitan Major"; "Bebop Major";
    "Bebop Minor"; "Ionian Augmented"; "Lydian Dominant" ]%string.

Definition note_labels : list string :=
  [ "C"; "C#"; "D"; "D#"; "E"; "F"; "F#"; "G"; "G#"; "A"; "A#"; "B" ]%string.

(** [osc_buffer_l[i]] and [osc_buffer_r[i]]; the loops keep [i] below the
    size of the arrays. *)
Definition read (buffer : list R) (i : nat) : R := default 0 (buffer !! i).

(** [snprintf] into [char buf[32]]: at most 31 characters are kept. *)
Definition snprintf32 (text : string) : string := String.substring 0 31 text.

(** The text of the root page: [root_note_midi % kNumNotes] and
    [root_note_midi / kNumNotes] are computed in [size_t] and stored in
    [int]s, then printed with ["Root: %s%d"]. *)
Definition root_text (root_note_midi : Z) : string :=
  let note_idx := (UI.size_t_of_int root_note_midi mod kNumNotes)%Z in
  let octave := (UI.size_t_of_int root_note_midi / kNumNotes)%Z in
  snprintf32
    ("Root: " +:+ nth (Z.to_nat note_idx) note_labels "" +:+ pretty octave).

(** The body of the waveform loop for one [i]. *)
Definition waveform_line (width : nat) (osc_buffer_l : list R) (i : nat)
    : Draw :=
  let x1 := Z.of_nat ((i - 1) * (width / kWaveformBufferSize)) in
  let y1 := Quantizer.int_of_float (read osc_buffer_l (i - 1) * 20 + 32) in
  let x2 := Z.of_nat (i * (width / kWaveformBufferSize)) in
  let y2 := Quantizer.int_of_float (read osc_buffer_l i * 20 + 32) in
  DrawLine x1 y1 x2 y2 true.

(** The body of the XY loop for one [i]. *)
Definition xy_pixel (osc_buffer_l osc_buffer_r : list R) (i : nat) : Draw :=
  let x := Quantizer.int_of_float (read osc_buffer_l i * 20 + 64) in
  let y := Quantizer.int_of_float (read osc_buffer_r i * 20 + 32) in
  DrawPixel x y true.

(** [UpdateDisplay], given what [patch.display.Width()] answers: the calls
    made on the display, in order. *)
Definition UpdateDisplay (width : nat) (ui : UI.State) (w : Audio.Waveform)
    : list Draw :=
  [Fill false] ++
  (if UI.menu_active ui then
     [SetCursor 0 0; WriteString "Menu:" Font_7x10 true; SetCursor 0 15] ++
     match UI.menu_state ui with
     | UI.SCALE_SELECTION =>
         let scale_name := nth (UI.current_scale_idx ui) scale_names "" in
         [WriteString "Scale: " Font_7x10 false;
          WriteString scale_name Font_7x10 true]
     | UI.ROOT_NOTE_SELECTION =>
         [WriteString (root_text (UI.root_note_midi ui)) Font_7x10 true]
     end
   else
     match UI.display_mode ui with
     | UI.WAVEFORM =>
         map (waveform_line width (Audio.osc_buffer_l w))
           (seq 1 (kWaveformBufferSize - 1))
     | UI.XY =>
         map (xy_pixel (Audio.osc_buffer_l w) (Audio.osc_buffer_r w))
           (seq 0 kWaveformBufferSize)
     end) ++
  [Update].

(** The text written by a list of calls, in order. *)
Definition written (calls : list Draw) : list string :=
  flat_map (fun c => match c with WriteString str _ _ => [str] | _ => [] end)
    calls.

Definition is_text (c : Draw) : bool :=
  match c with SetCursor _ _ | WriteString _ _ _ => true | _ => false end.

Definition is_line (c : Draw) : bool :=
  match c with DrawLine _ _ _ _ _ => true | _ => false end.

Definition is_pixel (c : Draw) : bool :=
  match c with DrawPixel _ _ _ => true | _ => false end.

(** Whether a call draws inside a screen of the given size. *)
Definition on_screen (width height : Z) (c : Draw) : Prop :=
  match c with
  | DrawLine x1 y1 x2 y2 _ =>
      (0 <= x1 < width /\ 0 <= y1 < height /\
       0 <= x2 < width /\ 0 <= y2 < height)%Z
  | DrawPixel x y _ => (0 <= x < width /\ 0 <= y < height)%Z
  | _ => True
  end.

End Display.

(** ** Helpers for the statements below *)

(** The number of calls of a run that read a click. *)
Definition clicks (encs : list UI.Encoder) : nat :=
  length (List.filter UI.RisingEdge encs).

(** The input that, from power-up, selects scale [s] and root note [r]:
    a click, [s] detents up, a press, and the detents from 69 up to [r]. *)
Definition select_inputs (s : nat) (r : Z) : list UI.Encoder :=
  [UI.click false] ++ replicate s (UI.turn 1) ++ [UI.held] ++
  replicate (Z.to_nat ((r - 69) mod 108)) (UI.turn 1).

(** A stand-in for the oscillator of the library, to run the statements on:
    a square wave that ignores its frequency. *)
Definition square_wave : Oscillator bool := {|
  SetFreq := fun (_ : R) (phase : bool) => phase;
  Process := fun phase : bool => (if phase then 1 else -1, negb phase)
|}.

(** Every sample of both buffers is between -1 and 1. *)
Definition in_unit_range (w : Audio.Waveform) : Prop :=
  Forall (fun x => -1 <= x <= 1) (Audio.osc_buffer_l w) /\
  Forall (fun x => -1 <= x <= 1) (Audio.osc_buffer_r w).

(** * Properties *)

(** ** The encoder and the menu *)

Section UpdateEncoder_facts.
Import UI.

Lemma other_page_involutive (m : MenuState) : other_page (other_page m) = m.
Proof. by destruct m. Qed.

Lemma page_eqb_other (m : MenuState) : page_eqb (other_page m) m = false.
Proof. by destruct m. Qed.

Lemma page_eqb_refl (m : MenuState) : page_eqb m m = true.
Proof. by destruct m. Qed.

(** What a call without a click does when the menu is shown. *)
Lemma UpdateEncoder_in_menu (enc : Encoder) (st : State) :
  RisingEdge enc = false -> menu_active st = true ->
  UpdateEncoder enc st =
    press_in_menu (Pressed enc) (turn_in_menu (Increment enc) st).
Proof. intros Hr Ha. unfold UpdateEncoder. by rewrite Hr, Ha. Qed.

(** What a call without a click does when the menu is hidden. *)
Lemma UpdateEncoder_in_view (enc : Encoder) (st : State) :
  RisingEdge enc = false -> menu_active st = false ->
  UpdateEncoder enc st = turn_in_view (Increment enc) st.
Proof. intros Hr Ha. unfold UpdateEncoder. by rewrite Hr, Ha. Qed.

Lemma turn_in_menu_frame (inc : Z) (st : State) :
  menu_active (turn_in_menu inc st) = menu_active st /\
  menu_state (turn_in_menu inc st) = menu_state st /\
  display_mode (turn_in_menu inc st) = display_mode st /\
  last_encoder_pressed (turn_in_menu inc st) = last_encoder_pressed st.
Proof.
  unfold turn_in_menu.
  destruct (inc >? 0)%Z, (inc <? 0)%Z, (menu_state st) eqn:E;
    cbn; by rewrite ?E.
Qed.

Lemma press_in_menu_frame (pressed : bool) (st : State) :
  menu_active (press_in_menu pressed st) = menu_active st /\
  display_mode (press_in_menu pressed st) = display_mode st /\
  current_scale_idx (press_in_menu pressed st) = current_scale_idx st /\
  root_note_midi (press_in_menu pressed st) = root_note_midi st.
Proof.
  unfold press_in_menu.
  destruct pressed, (last_encoder_pressed st); by cbn.
Qed.

(** The press rule: the page turns exactly when the button is down and the
    flag is clear, and the flag then holds the level just read. *)
Lemma press_in_menu_page (pressed : bool) (st : State) :
  menu_state (press_in_menu pressed st) =
    (if pressed && negb (last_encoder_pressed st)
     then other_page (menu_state st) else menu_state st) /\
  last_encoder_pressed (press_in_menu pressed st) = pressed.
Proof.
  unfold press_in_menu.
  destruct pressed, (last_encoder_pressed st) eqn:E; cbn; by rewrite ?E.
Qed.

Lemma turn_in_view_frame (inc : Z) (st : State) :
  menu_active (turn_in_view inc st) = menu_active st /\
  menu_state (turn_in_view inc st) = menu_state st /\
  current_scale_idx (turn_in_view inc st) = current_scale_idx st /\
  root_note_midi (turn_in_view inc st) = root_note_midi st /\
  last_encoder_pressed (turn_in_view inc st) = last_encoder_pressed st.
Proof. unfold turn_in_view. destruct (negb _); by cbn. Qed.

Lemma toggle_menu_frame (st : State) :
  menu_active (toggle_menu st) = negb (menu_active st) /\
  menu_state (toggle_menu st) = menu_state st /\
  current_scale_idx (toggle_menu st) = current_scale_idx st /\
  root_note_midi (toggle_menu st) = root_note_midi st /\
  last_encoder_pressed (toggle_menu st) = last_encoder_pressed st /\
  display_mode (toggle_menu st) =
    (if menu_active st then WAVEFORM else display_mode st).
Proof. unfold toggle_menu. destruct st as [? ? ? ? [] ?]; by cbn. Qed.

(** Without a click the menu stays as it is, shown or hidden. *)
Lemma UpdateEncoder_keeps_menu (enc : Encoder) (st : State) :
  RisingEdge enc = false ->
  menu_active (UpdateEncoder enc st) = menu_active st.
Proof.
  intros Hr. destruct (menu_active st) eqn:Ha.
  - rewrite UpdateEncoder_in_menu by done.
    destruct (press_in_menu_frame (Pressed enc)
                (turn_in_menu (Increment enc) st)) as [-> _].
    by destruct (turn_in_menu_frame (Increment enc) st) as [-> _].
  - rewrite UpdateEncoder_in_view by done.
    by destruct (turn_in_view_frame (Increment enc) st) as [-> _].
Qed.

Lemma run_cons (enc : Encoder) (encs : list Encoder) (st : State) :
  run (enc :: encs) st = run encs (UpdateEncoder enc st).
Proof. reflexivity. Qed.

Lemma run_app (encs1 encs2 : list Encoder) (st : State) :
  run (encs1 ++ encs2) st = run encs2 (run encs1 st).
Proof. unfold run. by rewrite fold_left_app. Qed.

Lemma run_keeps_menu (encs : list Encoder) (st : State) :
  Forall (fun enc => RisingEdge enc = false) encs ->
  menu_active (run encs st) = menu_active st.
Proof.
  intros Hall. revert st.
  induction Hall as [|enc encs Hr _ IH]; intros st; [done|].
  by rewrite run_cons, IH, UpdateEncoder_keeps_menu.
Qed.

(** While the menu is shown and nobody clicks, the display mode is kept. *)
Lemma UpdateEncoder_in_menu_display (enc : Encoder) (st : State) :
  RisingEdge enc = false -> menu_active st = true ->
  display_mode (UpdateEncoder enc st) = display_mode st.
Proof.
  intros Hr Ha. rewrite UpdateEncoder_in_menu by done.
  destruct (press_in_menu_frame (Pressed enc)
              (turn_in_menu (Increment enc) st)) as (_ & -> & _).
  by destruct (turn_in_menu_frame (Increment enc) st) as (_ & _ & -> & _).
Qed.

Lemma run_in_menu_display (encs : list Encoder) (st : State) :
  Forall (fun enc => RisingEdge enc = false) encs ->
  menu_active st = true ->
  display_mode (run encs st) = display_mode st.
Proof.
  intros Hall. revert st.
  induction Hall as [|enc encs Hr _ IH]; intros st Ha; [done|].
  rewrite run_cons, IH.
  - by apply UpdateEncoder_in_menu_display.
  - by rewrite UpdateEncoder_keeps_menu.
Qed.

End UpdateEncoder_facts.

Section Menu_navigation.
Import UI.

Lemma last_cons_default {A} (x d : A) (l : list A) :
  List.last (x :: l) d = List.last l x.
Proof.
  revert x d. induction l as [|y l IH]; intros x d; [done|].
  change (List.last (y :: l) d = List.last (y :: l) x).
  by rewrite (IH y d), (IH y x).
Qed.

Lemma UpdateEncoder_in_menu_page (enc : Encoder) (st : State) :
  RisingEdge enc = false -> menu_active st = true ->
  menu_state (UpdateEncoder enc st) =
    (if Pressed enc && negb (last_encoder_pressed st)
     then other_page (menu_state st) else menu_state st) /\
  last_encoder_pressed (UpdateEncoder enc st) = Pressed enc.
Proof.
  intros Hr Ha. rewrite UpdateEncoder_in_menu by done.
  destruct (press_in_menu_page (Pressed enc)
              (turn_in_menu (Increment enc) st)) as [-> ->].
  by destruct (turn_in_menu_frame (Increment enc) st) as (_ & -> & _ & ->).
Qed.

(** C3.  While the menu is shown (no click closes it during the run), the
    calls that turn the menu page are exactly the presses: the calls that
    read the button down while the flag, which holds the level read by the
    call before, is clear.  So a button held for any number of calls turns
    the page once if the hold starts with the flag clear, and never again
    until a call has read the button up. *)
Theorem held_button_turns_page_once (encs : list Encoder) (st : State) :
  menu_active st = true ->
  Forall (fun enc => RisingEdge enc = false) encs ->
  page_flips encs st
    = press_edges (last_encoder_pressed st) (map Pressed encs) /\
  last_encoder_pressed (run encs st)
    = List.last (map Pressed encs) (last_encoder_pressed st) /\
  (Forall (fun enc => Pressed enc = true) encs -> encs <> [] ->
   menu_state (run encs st)
     = if last_encoder_pressed st then menu_state st
       else other_page (menu_state st)).
Proof.
  intros Ha Hall. revert st Ha.
  induction Hall as [|enc encs Hr Hall IH]; intros st Ha.
  { split; [done|]. split; [done|]. by intros _ []. }
  destruct (UpdateEncoder_in_menu_page enc st Hr Ha) as [Hpage Hlast].
  assert (Ha' : menu_active (UpdateEncoder enc st) = true)
    by by rewrite UpdateEncoder_keeps_menu.
  destruct (IH _ Ha') as (IHflips & IHlast & IHheld).
  split; [|split].
  - cbn [page_flips map press_edges]. rewrite IHflips, Hlast, Hpage.
    f_equal.
    destruct (Pressed enc), (last_encoder_pressed st); cbn;
      by rewrite ?page_eqb_other, ?page_eqb_refl.
  - rewrite run_cons, IHlast, Hlast. cbn [map].
    by rewrite last_cons_default.
  - intros Hheld _. apply Forall_cons in Hheld as [Hp Hheld].
    rewrite run_cons. destruct encs as [|enc' encs].
    + cbn. rewrite Hpage, Hp. by destruct (last_encoder_pressed st).
    + rewrite IHheld by done. rewrite Hlast, Hp, Hpage, Hp.
      by destruct (last_encoder_pressed st).
Qed.

Lemma held_button_turns_page_once_witness :
  page_flips [held; held; held; turn 0; held] (toggle_menu initial)
    = [true; false; false; false; true] /\
  menu_state (run [held; held; held] (toggle_menu initial))
    = ROOT_NOTE_SELECTION.
Proof.
  assert (Ha : menu_active (toggle_menu initial) = true) by reflexivity.
  split.
  - refine (proj1 (held_button_turns_page_once
                     [held; held; held; turn 0; held] _ Ha _)).
    repeat constructor.
  - refine (proj2 (proj2 (held_button_turns_page_once
                            [held; held; held] _ Ha _)) _ _).
    + repeat constructor.
    + repeat constructor.
    + discriminate.
Defined.

(** *** The selections and their wrap-around *)

Lemma root_up_mod (r : Z) :
  (0 <= r < 108)%Z -> root_up r = ((r + 1) mod 108)%Z.
Proof.
  intros Hr. unfold root_up, size_t_of_int, kNumNotes, kNumOctaves.
  change (2 ^ 32)%Z with 4294967296%Z.
  rewrite (Z.mod_small (r + 1)) by lia. reflexivity.
Qed.

Lemma root_down_mod (r : Z) :
  (0 <= r < 108)%Z -> root_down r = ((r - 1) mod 108)%Z.
Proof.
  intros Hr. unfold root_down, size_t_of_int, kNumNotes, kNumOctaves.
  change (2 ^ 32)%Z with 4294967296%Z.
  rewrite (Z.mod_small r) by lia.
  rewrite (Z.mod_small (r + 12 * 9 - 1)) by lia.
  replace (r + 12 * 9 - 1)%Z with (r - 1 + 1 * 108)%Z by lia.
  apply Z_mod_plus_full.
Qed.

Lemma scale_up_mod (i : nat) :
  Z.of_nat (scale_up i) = ((Z.of_nat i + 1) mod 25)%Z.
Proof.
  unfold scale_up, kNumScales. rewrite Nat2Z.inj_mod. f_equal. lia.
Qed.

Lemma scale_down_mod (i : nat) :
  Z.of_nat (scale_down i) = ((Z.of_nat i - 1) mod 25)%Z.
Proof.
  unfold scale_down, kNumScales. rewrite Nat2Z.inj_mod.
  replace (Z.of_nat (i + 25 - 1)) with (Z.of_nat i - 1 + 1 * 25)%Z by lia.
  apply Z_mod_plus_full.
Qed.

Lemma root_up_range (r : Z) : (0 <= root_up r < kNumNotes * kNumOctaves)%Z.
Proof. unfold root_up. apply Z.mod_pos_bound. by cbv. Qed.

Lemma root_down_range (r : Z) :
  (0 <= root_down r < kNumNotes * kNumOctaves)%Z.
Proof. unfold root_down. apply Z.mod_pos_bound. by cbv. Qed.

Lemma scale_up_range (i : nat) : (scale_up i < kNumScales)%nat.
Proof. unfold scale_up, kNumScales. apply Nat.mod_upper_bound. lia. Qed.

Lemma scale_down_range (i : nat) : (scale_down i < kNumScales)%nat.
Proof. unfold scale_down, kNumScales. apply Nat.mod_upper_bound. lia. Qed.

Lemma turn_in_menu_range (inc : Z) (st : State) :
  in_range st -> in_range (turn_in_menu inc st).
Proof.
  intros [Hs Hr]. unfold turn_in_menu, in_range.
  pose proof (root_up_range (root_note_midi st)).
  pose proof (root_down_range (root_note_midi st)).
  pose proof (scale_up_range (current_scale_idx st)).
  pose proof (scale_down_range (current_scale_idx st)).
  destruct (inc >? 0)%Z, (inc <? 0)%Z, (menu_state st); by cbn.
Qed.

(** Every call keeps the selections inside their tables. *)
Lemma UpdateEncoder_range (enc : Encoder) (st : State) :
  in_range st -> in_range (UpdateEncoder enc st).
Proof.
  intros Hin. unfold UpdateEncoder.
  set (st1 := if RisingEdge enc then toggle_menu st else st).
  assert (Hin1 : in_range st1).
  { subst st1. destruct (RisingEdge enc); [|done].
    destruct (toggle_menu_frame st) as (_ & _ & Hs & Hr & _).
    unfold in_range. by rewrite Hs, Hr. }
  destruct (menu_active st1).
  - apply turn_in_menu_range with (inc := Increment enc) in Hin1.
    destruct (press_in_menu_frame (Pressed enc)
                (turn_in_menu (Increment enc) st1)) as (_ & _ & Hs & Hr).
    unfold in_range. by rewrite Hs, Hr.
  - destruct (turn_in_view_frame (Increment enc) st1)
      as (_ & _ & Hs & Hr & _).
    unfold in_range. by rewrite Hs, Hr.
Qed.

Lemma reachable_in_range (st : State) : reachable st -> in_range st.
Proof.
  induction 1 as [|enc st _ IH].
  - split; cbv; [lia|]. by split.
  - by apply UpdateEncoder_range.
Qed.

(** One call in the menu, without a click: the selection of the page shown
    moves by the sign of the increment, the other one stays. *)
Lemma UpdateEncoder_in_menu_turn (enc : Encoder) (st : State) :
  in_range st -> RisingEdge enc = false -> menu_active st = true ->
  match menu_state st with
  | SCALE_SELECTION =>
      Z.of_nat (current_scale_idx (UpdateEncoder enc st))
        = ((Z.of_nat (current_scale_idx st) + Z.sgn (Increment enc)) mod 25)%Z
      /\ root_note_midi (UpdateEncoder enc st) = root_note_midi st
  | ROOT_NOTE_SELECTION =>
      root_note_midi (UpdateEncoder enc st)
        = ((root_note_midi st + Z.sgn (Increment enc)) mod 108)%Z
      /\ current_scale_idx (UpdateEncoder enc st) = current_scale_idx st
  end.
Proof.
  intros [Hs Hr] Hc Ha. rewrite UpdateEncoder_in_menu by done.
  destruct (press_in_menu_frame (Pressed enc)
              (turn_in_menu (Increment enc) st)) as (_ & _ & -> & ->).
  unfold kNumScales, kNumNotes, kNumOctaves in *.
  unfold turn_in_menu.
  destruct (Increment enc) as [|p|p]; cbn [Z.gtb Z.ltb Z.compare Z.sgn];
    destruct (menu_state st); cbn [current_scale_idx root_note_midi
      with_scale with_root]; split; try reflexivity.
  - rewrite Z.add_0_r, Z.mod_small; lia.
  - rewrite Z.add_0_r, Z.mod_small; lia.
  - apply scale_up_mod.
  - apply root_up_mod. lia.
  - apply scale_down_mod.
  - apply root_down_mod. lia.
Qed.

(** Any number of such calls in the menu: the page shown is kept and its
    selection has moved by the signed number of calls that turned. *)
Lemma run_in_menu_turns (encs : list Encoder) (st : State) :
  in_range st -> menu_active st = true -> Forall quiet encs ->
  menu_state (run encs st) = menu_state st /\
  match menu_state st with
  | SCALE_SELECTION =>
      Z.of_nat (current_scale_idx (run encs st))
        = ((Z.of_nat (current_scale_idx st) + net_turns encs) mod 25)%Z
      /\ root_note_midi (run encs st) = root_note_midi st
  | ROOT_NOTE_SELECTION =>
      root_note_midi (run encs st)
        = ((root_note_midi st + net_turns encs) mod 108)%Z
      /\ current_scale_idx (run encs st) = current_scale_idx st
  end.
Proof.
  intros Hin Ha Hall. revert st Hin Ha.
  induction Hall as [|enc encs [Hc Hp] _ IH]; intros st Hin Ha.
  { destruct Hin as [Hs Hr].
    unfold kNumScales, kNumNotes, kNumOctaves in *. cbn.
    destruct (menu_state st); rewrite Z.add_0_r, Z.mod_small; by try lia. }
  rewrite run_cons. cbn [net_turns fold_right].
  fold (net_turns encs).
  pose proof (UpdateEncoder_in_menu_turn enc st Hin Hc Ha) as Hstep.
  destruct (UpdateEncoder_in_menu_page enc st Hc Ha) as [Hpage _].
  rewrite Hp in Hpage. cbn in Hpage.
  destruct (IH (UpdateEncoder enc st)) as [IHpage IHsel].
  { by apply UpdateEncoder_range. }
  { by rewrite UpdateEncoder_keeps_menu. }
  rewrite Hpage in IHpage, IHsel. split; [done|].
  destruct (menu_state st).
  - destruct Hstep as [Hs Hr], IHsel as [-> ->]. split; [|done].
    rewrite Hs, Zplus_mod_idemp_l. f_equal. lia.
  - destruct Hstep as [Hr Hs], IHsel as [-> ->]. split; [|done].
    rewrite Hr, Zplus_mod_idemp_l. f_equal. lia.
Qed.

Lemma net_turns_up (encs : list Encoder) :
  Forall (fun enc => (0 < Increment enc)%Z) encs ->
  net_turns encs = Z.of_nat (length encs).
Proof.
  induction 1 as [|enc encs Hpos _ IH]; [done|].
  cbn [net_turns fold_right length]. fold (net_turns encs).
  rewrite IH. destruct (Increment enc); cbn [Z.sgn]; lia.
Qed.

Lemma net_turns_down (encs : list Encoder) :
  Forall (fun enc => (Increment enc < 0)%Z) encs ->
  net_turns encs = (- Z.of_nat (length encs))%Z.
Proof.
  induction 1 as [|enc encs Hneg _ IH]; [done|].
  cbn [net_turns fold_right length]. fold (net_turns encs).
  rewrite IH. destruct (Increment enc); cbn [Z.sgn]; lia.
Qed.

(** C6.  In every state the program can reach the scale index is inside the
    scale table and the root note in [0, 108).  A call in the menu moves the
    selection of the page shown by +1 for a positive increment and by -1 for
    a negative one, modulo 25 for the scale and 108 for the root note, and
    leaves the other selection alone.  So 108 calls that all turn up, or all
    turn down, bring the root note back, and 25 such calls the scale index. *)
Theorem menu_selection_wraps (st : State) (enc : Encoder)
    (encs : list Encoder) :
  reachable st ->
  ((current_scale_idx st < kNumScales)%nat /\
   (current_scale_idx st < length scales)%nat /\
   (0 <= root_note_midi st < 108)%Z) /\
  (RisingEdge enc = false -> menu_active st = true ->
   match menu_state st with
   | SCALE_SELECTION =>
       Z.of_nat (current_scale_idx (UpdateEncoder enc st))
         = ((Z.of_nat (current_scale_idx st) + Z.sgn (Increment enc))
            mod Z.of_nat kNumScales)%Z
       /\ root_note_midi (UpdateEncoder enc st) = root_note_midi st
   | ROOT_NOTE_SELECTION =>
       root_note_midi (UpdateEncoder enc st)
         = ((root_note_midi st + Z.sgn (Increment enc)) mod 108)%Z
       /\ current_scale_idx (UpdateEncoder enc st) = current_scale_idx st
   end) /\
  (menu_active st = true -> Forall quiet encs ->
   Forall (fun enc => (0 < Increment enc)%Z) encs \/
   Forall (fun enc => (Increment enc < 0)%Z) encs ->
   (menu_state st = ROOT_NOTE_SELECTION -> length encs = 108%nat ->
    root_note_midi (run encs st) = root_note_midi st) /\
   (menu_state st = SCALE_SELECTION -> length encs = kNumScales ->
    current_scale_idx (run encs st) = current_scale_idx st)).
Proof.
  intros Hreach. pose proof (reachable_in_range st Hreach) as Hin.
  split; [|split].
  - destruct Hin as [Hs Hr]. split; [exact Hs|]. split; [exact Hs|exact Hr].
  - intros Hc Ha. by apply UpdateEncoder_in_menu_turn.
  - intros Ha Hquiet Hdir.
    destruct (run_in_menu_turns encs st Hin Ha Hquiet) as [_ Hsel].
    destruct Hin as [Hs Hr].
    unfold kNumScales, kNumNotes, kNumOctaves in *.
    split; intros Hpage Hlen; rewrite Hpage in Hsel; destruct Hsel as [Hsel _].
    + rewrite Hsel.
      destruct Hdir as [Hup|Hdown].
      * rewrite (net_turns_up _ Hup), Hlen.
        replace (root_note_midi st + Z.of_nat 108)%Z
          with (root_note_midi st + 1 * 108)%Z by lia.
        rewrite Z_mod_plus_full. apply Z.mod_small. lia.
      * rewrite (net_turns_down _ Hdown), Hlen.
        replace (root_note_midi st + - Z.of_nat 108)%Z
          with (root_note_midi st + (-1) * 108)%Z by lia.
        rewrite Z_mod_plus_full. apply Z.mod_small. lia.
    + apply Nat2Z.inj. rewrite Hsel.
      destruct Hdir as [Hup|Hdown].
      * rewrite (net_turns_up _ Hup), Hlen.
        replace (Z.of_nat (current_scale_idx st) + Z.of_nat 25)%Z
          with (Z.of_nat (current_scale_idx st) + 1 * 25)%Z by lia.
        rewrite Z_mod_plus_full. apply Z.mod_small. lia.
      * rewrite (net_turns_down _ Hdown), Hlen.
        replace (Z.of_nat (current_scale_idx st) + - Z.of_nat 25)%Z
          with (Z.of_nat (current_scale_idx st) + (-1) * 25)%Z by lia.
        rewrite Z_mod_plus_full. apply Z.mod_small. lia.
Qed.

Lemma menu_selection_wraps_witness :
  root_note_midi (UpdateEncoder (turn 5) (UpdateEncoder (click true) initial))
    = 70%Z /\
  root_note_midi
    (run (replicate 108 (turn (-1))) (UpdateEncoder (click true) initial))
    = 69%Z /\
  current_scale_idx
    (run (replicate 25 (turn 2)) (UpdateEncoder (click false) initial))
    = 0%nat.
Proof.
  assert (Hroot : reachable (UpdateEncoder (click true) initial))
    by apply reachable_step, reachable_initial.
  assert (Hscale : reachable (UpdateEncoder (click false) initial))
    by apply reachable_step, reachable_initial.
  split; [|split].
  - exact (proj1 (proj1 (proj2 (menu_selection_wraps _ (turn 5) [] Hroot))
                    eq_refl eq_refl)).
  - refine (proj1 (proj2 (proj2 (menu_selection_wraps _ (turn 0)
              (replicate 108 (turn (-1))) Hroot)) eq_refl _ _) eq_refl eq_refl).
    + apply Forall_replicate. by split.
    + right. apply Forall_replicate. reflexivity.
  - refine (proj2 (proj2 (proj2 (menu_selection_wraps _ (turn 0)
              (replicate 25 (turn 2)) Hscale)) eq_refl _ _) eq_refl eq_refl).
    + apply Forall_replicate. by split.
    + left. apply Forall_replicate. reflexivity.
Defined.

(** *** Clicks and the display mode *)

(** A click while the menu is shown hides it and sets the waveform view;
    an increment read by the same call is then handled by the branch of the
    hidden menu. *)
Lemma click_closes_menu (enc : Encoder) (st : State) :
  RisingEdge enc = true -> menu_active st = true ->
  menu_active (UpdateEncoder enc st) = false /\
  display_mode (UpdateEncoder enc st)
    = if (Increment enc =? 0)%Z then WAVEFORM else XY.
Proof.
  intros Hc Ha. destruct st as [s r d m a l], enc as [c inc p].
  cbn in Hc, Ha. subst.
  unfold UpdateEncoder, toggle_menu, turn_in_view. cbn.
  by destruct (inc =? 0)%Z.
Qed.

(** A click while the menu is hidden shows it and keeps the display mode. *)
Lemma click_opens_menu (enc : Encoder) (st : State) :
  RisingEdge enc = true -> menu_active st = false ->
  menu_active (UpdateEncoder enc st) = true /\
  display_mode (UpdateEncoder enc st) = display_mode st.
Proof.
  intros Hc Ha.
  unfold UpdateEncoder. rewrite Hc.
  destruct (toggle_menu_frame st) as (Ha' & _ & _ & _ & _ & Hd).
  rewrite Ha in Ha', Hd. cbn in Ha'. rewrite Ha'.
  destruct (press_in_menu_frame (Pressed enc)
              (turn_in_menu (Increment enc) (toggle_menu st)))
    as (-> & -> & _).
  destruct (turn_in_menu_frame (Increment enc) (toggle_menu st))
    as (-> & _ & -> & _).
  by rewrite Ha', Hd.
Qed.

(** C7, as the code has it.  From a state with the menu hidden, as the
    initial one, a click shows the menu and keeps the display mode, also
    over the calls that follow without a click.  The next click hides the
    menu again and sets the waveform view, whatever the display mode was
    before the menu was shown; an increment read by that same call is then
    handled by the branch of the hidden menu, so the call ends in the
    waveform view when it reads no increment and in the XY view when it
    reads one. *)
Theorem second_click_returns_to_waveform (st : State) (enc1 enc2 : Encoder)
    (between : list Encoder) :
  menu_active st = false ->
  RisingEdge enc1 = true ->
  Forall (fun enc => RisingEdge enc = false) between ->
  RisingEdge enc2 = true ->
  let st1 := UpdateEncoder enc1 st in
  let st2 := UpdateEncoder enc2 (run between st1) in
  menu_active initial = false /\ display_mode initial = WAVEFORM /\
  menu_active st1 = true /\
  display_mode (run between st1) = display_mode st /\
  menu_active st2 = false /\
  display_mode st2 = (if (Increment enc2 =? 0)%Z then WAVEFORM else XY).
Proof.
  intros Ha Hc1 Hbetween Hc2 st1 st2.
  destruct (click_opens_menu enc1 st Hc1 Ha) as [Ha1 Hd1].
  assert (Ha' : menu_active (run between st1) = true)
    by by rewrite run_keeps_menu.
  destruct (click_closes_menu enc2 _ Hc2 Ha') as [Ha2 Hd2].
  repeat split; try done.
  by rewrite run_in_menu_display.
Qed.

Lemma second_click_returns_to_waveform_witness :
  display_mode (UpdateEncoder (turn 1) initial) = XY /\
  display_mode
    (run [turn 1; click true; turn 3; held; click false] initial) = WAVEFORM.
Proof.
  split; [reflexivity|].
  refine (proj2 (proj2 (proj2 (proj2 (proj2
    (second_click_returns_to_waveform (UpdateEncoder (turn 1) initial)
       (click true) (click false) [turn 3; held] eq_refl eq_refl _
       eq_refl)))))).
  repeat constructor.
Defined.

(** C7 as the claim has it fails: from power-up, a click shows the menu,
    and a second click that is read together with one detent of the knob
    hides it and ends in the XY view, not in the waveform view. *)
Lemma closing_click_with_turn_ends_in_xy :
  let turning_click :=
    {| RisingEdge := true; Increment := 1; Pressed := false |} in
  menu_active initial = false /\ display_mode initial = WAVEFORM /\
  menu_active (UpdateEncoder (click false) initial) = true /\
  menu_active (run [click false; turning_click] initial) = false /\
  display_mode (run [click false; turning_click] initial) = XY /\
  display_mode (run [click false; turning_click] initial) <> WAVEFORM.
Proof. by repeat split. Qed.

(** C9.  While the menu is hidden (and the call reads no click), a call
    with a nonzero increment changes the waveform view to the XY view and
    the XY view to the waveform view, whatever the sign and the size of the
    increment, and a call with increment 0 keeps the display mode. *)
Theorem turn_toggles_display (st : State) (enc enc' : Encoder) :
  menu_active st = false ->
  RisingEdge enc = false -> RisingEdge enc' = false ->
  display_mode (UpdateEncoder enc st)
    = (if (Increment enc =? 0)%Z then display_mode st
       else match display_mode st with WAVEFORM => XY | XY => WAVEFORM end)
  /\
  (Increment enc <> 0%Z -> Increment enc' <> 0%Z ->
   display_mode (UpdateEncoder enc st)
     = display_mode (UpdateEncoder enc' st)).
Proof.
  intros Ha Hc Hc'.
  assert (Hstep : forall e, RisingEdge e = false ->
    display_mode (UpdateEncoder e st)
      = if (Increment e =? 0)%Z then display_mode st
        else match display_mode st with WAVEFORM => XY | XY => WAVEFORM end).
  { intros e He. rewrite UpdateEncoder_in_view by done.
    unfold turn_in_view.
    destruct (Increment e =? 0)%Z; [done|]. cbn.
    by destruct (display_mode st). }
  split; [by apply Hstep|].
  intros Hn Hn'. rewrite !Hstep by done.
  apply Z.eqb_neq in Hn, Hn'. by rewrite Hn, Hn'.
Qed.

Lemma turn_toggles_display_witness :
  display_mode (UpdateEncoder (turn (-4)) initial) = XY /\
  display_mode (UpdateEncoder (turn 2) (UpdateEncoder (turn (-4)) initial))
    = WAVEFORM /\
  display_mode (UpdateEncoder (turn 0) (UpdateEncoder (turn (-4)) initial))
    = XY /\
  display_mode (UpdateEncoder (turn (-4)) initial)
    = display_mode (UpdateEncoder (turn 1) initial).
Proof.
  repeat apply conj.
  - exact (proj1 (turn_toggles_display initial (turn (-4)) (turn 1)
                    eq_refl eq_refl eq_refl)).
  - exact (proj1 (turn_toggles_display (UpdateEncoder (turn (-4)) initial)
                    (turn 2) (turn 1) eq_refl eq_refl eq_refl)).
  - exact (proj1 (turn_toggles_display (UpdateEncoder (turn (-4)) initial)
                    (turn 0) (turn 1) eq_refl eq_refl eq_refl)).
  - apply (proj2 (turn_toggles_display initial (turn (-4)) (turn 1)
                    eq_refl eq_refl eq_refl)); discriminate.
Defined.

(** C10, as the code has it.  A call changes only the state of the mode it
    runs in, with one exception: the click that shows the menu is followed,
    in the same call, by the press rule.  A click that hides the menu keeps
    the menu page, the scale index and the root note.  A click that shows
    the menu turns the menu page exactly when the call reads the button down
    while the flag is clear, and keeps the scale index and the root note
    when it reads no increment.  Without a click, a call in the menu keeps
    the display mode, and a call with the menu hidden keeps the menu page,
    the scale index and the root note. *)
Theorem UpdateEncoder_frame (st : State) (enc : Encoder) :
  let st' := UpdateEncoder enc st in
  (RisingEdge enc = true -> menu_active st = true ->
   menu_state st' = menu_state st /\
   current_scale_idx st' = current_scale_idx st /\
   root_note_midi st' = root_note_midi st) /\
  (RisingEdge enc = true -> menu_active st = false ->
   menu_state st'
     = (if Pressed enc && negb (last_encoder_pressed st)
        then other_page (menu_state st) else menu_state st) /\
   (Increment enc = 0%Z ->
    current_scale_idx st' = current_scale_idx st /\
    root_note_midi st' = root_note_midi st)) /\
  (RisingEdge enc = false -> menu_active st = true ->
   display_mode st' = display_mode st) /\
  (RisingEdge enc = false -> menu_active st = false ->
   menu_state st' = menu_state st /\
   current_scale_idx st' = current_scale_idx st /\
   root_note_midi st' = root_note_midi st).
Proof.
  intros st'. subst st'. repeat apply conj.
  - intros Hc Ha. destruct st as [s r d m a l], enc as [c inc p].
    cbn in Hc, Ha. subst.
    unfold UpdateEncoder, toggle_menu, turn_in_view. cbn.
    by destruct (negb (inc =? 0)%Z).
  - intros Hc Ha.
    unfold UpdateEncoder. rewrite Hc.
    destruct (toggle_menu_frame st) as (Ha' & Hm & _ & _ & Hl & _).
    rewrite Ha in Ha'. cbn in Ha'. rewrite Ha'.
    destruct (press_in_menu_page (Pressed enc)
                (turn_in_menu (Increment enc) (toggle_menu st))) as [-> _].
    destruct (turn_in_menu_frame (Increment enc) (toggle_menu st))
      as (_ & -> & _ & ->).
    rewrite Hm, Hl. split; [done|].
    intros Hinc.
    destruct (press_in_menu_frame (Pressed enc)
                (turn_in_menu (Increment enc) (toggle_menu st)))
      as (_ & _ & -> & ->).
    rewrite Hinc. cbn.
    by destruct (toggle_menu_frame st) as (_ & _ & -> & -> & _).
  - apply UpdateEncoder_in_menu_display.
  - intros Hc Ha. rewrite UpdateEncoder_in_view by done.
    by destruct (turn_in_view_frame (Increment enc) st)
      as (_ & -> & -> & -> & _).
Qed.

Lemma UpdateEncoder_frame_witness :
  menu_state (UpdateEncoder (click false) initial) = SCALE_SELECTION /\
  root_note_midi (UpdateEncoder (click false) initial) = 69%Z /\
  menu_state (UpdateEncoder (click true) (UpdateEncoder (click true) initial))
    = ROOT_NOTE_SELECTION /\
  display_mode (UpdateEncoder (turn 1) (UpdateEncoder (click true) initial))
    = WAVEFORM /\
  root_note_midi (UpdateEncoder (turn 1) initial) = 69%Z.
Proof.
  repeat apply conj.
  - exact (proj1 (proj1 (proj2
      (UpdateEncoder_frame initial (click false))) eq_refl eq_refl)).
  - exact (proj2 (proj2 (proj1 (proj2
      (UpdateEncoder_frame initial (click false))) eq_refl eq_refl) eq_refl)).
  - exact (proj1 (proj1
      (UpdateEncoder_frame (UpdateEncoder (click true) initial) (click true))
      eq_refl eq_refl)).
  - exact (proj1 (proj2 (proj2
      (UpdateEncoder_frame (UpdateEncoder (click true) initial) (turn 1))))
      eq_refl eq_refl).
  - exact (proj2 (proj2 (proj2 (proj2 (proj2
      (UpdateEncoder_frame initial (turn 1)))) eq_refl eq_refl))).
Defined.

(** C10 as the claim has it fails: the first click after power-up, read
    together with the button down, shows the menu on the other page; and
    when the menu is then hidden and shown again by two such clicks, with
    the button released in between, it comes back on the page it did not
    have when it was hidden.  The same happens when the driver reports the
    button down only in the call after the click. *)
Lemma opening_click_turns_page :
  RisingEdge (click true) = true /\
  menu_active (UpdateEncoder (click true) initial) = true /\
  menu_state initial = SCALE_SELECTION /\
  menu_state (UpdateEncoder (click true) initial) = ROOT_NOTE_SELECTION /\
  menu_state (UpdateEncoder (click true) initial) <> menu_state initial /\
  menu_state
    (run [turn 0; click true; turn 0; click true]
       (UpdateEncoder (click true) initial))
    <> menu_state (UpdateEncoder (click true) initial) /\
  menu_state
    (run [click false; held; turn 0; click false; held]
       (UpdateEncoder (click false) initial))
    <> menu_state (UpdateEncoder (click false) initial).
Proof. by repeat split. Qed.

(** *** The earlier revision *)

(** Without the flag a button that is held turns the page at every call. *)
Lemma earlier_held_button_turns_page_each_call (enc : Encoder) (st : State) :
  RisingEdge enc = false -> menu_active st = true -> Pressed enc = true ->
  menu_state (Earlier.UpdateEncoder enc st) = other_page (menu_state st).
Proof.
  intros Hc Ha Hp. unfold Earlier.UpdateEncoder, Earlier.press_in_menu.
  rewrite Hc, Ha, Hp. unfold Earlier.turn_in_menu.
  destruct (Increment enc >? 0)%Z, (Increment enc <? 0)%Z,
    (menu_state st) eqn:E; cbn; by rewrite ?E.
Qed.

End Menu_navigation.

(** ** The waveform buffers *)

Section Waveform_facts.
Import Audio.

Lemma ring_index_shift (c n : nat) :
  (((c + 1) mod 128 + n) mod 128 = (c + S n) mod 128)%nat.
Proof. rewrite Nat.Div0.add_mod_idemp_l. f_equal. lia. Qed.

(** Fewer than a buffer length of steps never come back to a slot. *)
Lemma ring_index_distinct (c k : nat) :
  (c < 128)%nat -> (0 < k < 128)%nat -> ((c + k) mod 128)%nat <> c.
Proof.
  intros Hc Hk. destruct (Nat.lt_ge_cases (c + k) 128) as [Hlt|Hge].
  - rewrite Nat.mod_small; lia.
  - replace (c + k)%nat with (c + k - 128 + 1 * 128)%nat by lia.
    rewrite Nat.Div0.mod_add, Nat.mod_small; lia.
Qed.

Lemma initial_well_formed : well_formed initial.
Proof.
  split; [reflexivity|]. split; [reflexivity|].
  unfold initial, kWaveformBufferSize. cbn. lia.
Qed.

Lemma store_well_formed (mix_l mix_r : R) (w : Waveform) :
  well_formed w -> well_formed (store mix_l mix_r w).
Proof.
  intros (Hl & Hr & Hi). unfold well_formed, store.
  cbn [osc_buffer_l osc_buffer_r buffer_index].
  rewrite !length_insert. split; [done|]. split; [done|].
  apply Nat.mod_upper_bound. by cbv.
Qed.

(** The slot under the index takes the sample. *)
Lemma store_lookup_eq (mix_l mix_r : R) (w : Waveform) :
  well_formed w ->
  osc_buffer_l (store mix_l mix_r w) !! buffer_index w = Some mix_l /\
  osc_buffer_r (store mix_l mix_r w) !! buffer_index w = Some mix_r.
Proof.
  intros (Hl & Hr & Hi). unfold store. cbn.
  split; apply list_lookup_insert_eq; lia.
Qed.

(** Every other slot keeps what it held. *)
Lemma store_lookup_ne (mix_l mix_r : R) (w : Waveform) (i : nat) :
  i <> buffer_index w ->
  osc_buffer_l (store mix_l mix_r w) !! i = osc_buffer_l w !! i /\
  osc_buffer_r (store mix_l mix_r w) !! i = osc_buffer_r w !! i.
Proof.
  intros Hi. unfold store. cbn.
  split; by apply list_lookup_insert_ne.
Qed.

Lemma store_all_cons (s : R * R) (samples : list (R * R)) (w : Waveform) :
  store_all (s :: samples) w = store_all samples (store (fst s) (snd s) w).
Proof. reflexivity. Qed.

(** At most a buffer length of samples, stored from index [c] on: sample
    [k] is in slot [(c + k) mod 128], the slots not reached keep what they
    held, and the index has moved by the number of samples. *)
Lemma store_all_lookup (samples : list (R * R)) (w : Waveform) :
  well_formed w -> (length samples <= kWaveformBufferSize)%nat ->
  well_formed (store_all samples w) /\
  buffer_index (store_all samples w)
    = ((buffer_index w + length samples) mod kWaveformBufferSize)%nat /\
  (forall (k : nat) (s : R * R), samples !! k = Some s ->
     let i := ((buffer_index w + k) mod kWaveformBufferSize)%nat in
     osc_buffer_l (store_all samples w) !! i = Some (fst s) /\
     osc_buffer_r (store_all samples w) !! i = Some (snd s)) /\
  (forall i : nat,
     (forall k : nat, (k < length samples)%nat ->
        ((buffer_index w + k) mod kWaveformBufferSize)%nat <> i) ->
     osc_buffer_l (store_all samples w) !! i = osc_buffer_l w !! i /\
     osc_buffer_r (store_all samples w) !! i = osc_buffer_r w !! i).
Proof.
  revert w. induction samples as [|s samples IH]; intros w Hw Hlen.
  { change (store_all [] w) with w. split; [exact Hw|].
    destruct Hw as (_ & _ & Hi). unfold kWaveformBufferSize in *.
    split; [cbn [length]; rewrite Nat.add_0_r, Nat.mod_small; lia|].
    split; [by intros k s Hk|done]. }
  rewrite store_all_cons. cbn [length] in Hlen.
  pose proof Hw as (Hl & Hr & Hi).
  destruct (IH (store (fst s) (snd s) w)) as (IHw & IHi & IHin & IHout).
  { by apply store_well_formed. }
  { lia. }
  assert (Hidx : buffer_index (store (fst s) (snd s) w)
                 = ((buffer_index w + 1) mod kWaveformBufferSize)%nat)
    by reflexivity.
  rewrite Hidx in IHi, IHin, IHout.
  unfold kWaveformBufferSize in *.
  split; [exact IHw|]. split; [|split].
  - rewrite IHi. cbn [length]. apply ring_index_shift.
  - intros [|k] s' Hk; cbv zeta.
    + cbn in Hk. injection Hk as <-.
      rewrite Nat.add_0_r, Nat.mod_small by lia.
      destruct (IHout (buffer_index w)) as [-> ->].
      { intros k Hk. rewrite ring_index_shift.
        apply ring_index_distinct; lia. }
      by apply store_lookup_eq.
    + cbn in Hk. destruct (IHin k s' Hk) as [Hkl Hkr].
      by rewrite <- ring_index_shift.
  - intros i Hout.
    destruct (IHout i) as [-> ->].
    { intros k Hk. rewrite ring_index_shift. apply Hout. cbn [length]. lia. }
    apply store_lookup_ne. specialize (Hout 0%nat). cbn [length] in Hout.
    rewrite Nat.add_0_r, Nat.mod_small in Hout by lia.
    intros ->. apply Hout; [lia|done].
Qed.

Lemma store_all_well_formed (samples : list (R * R)) (w : Waveform) :
  well_formed w -> well_formed (store_all samples w).
Proof.
  revert w. induction samples as [|s samples IH]; intros w Hw; [done|].
  rewrite store_all_cons. by apply IH, store_well_formed.
Qed.

(** Counted from the index, every slot is some number of steps away. *)
Lemma ring_index_reaches (c i : nat) :
  (c < 128)%nat -> (i < 128)%nat ->
  ((c + (i + 128 - c) mod 128) mod 128)%nat = i.
Proof.
  intros Hc Hi. rewrite Nat.Div0.add_mod_idemp_r.
  replace (c + (i + 128 - c))%nat with (i + 1 * 128)%nat by lia.
  rewrite Nat.Div0.mod_add. apply Nat.mod_small. lia.
Qed.

(** C5, as the code has it.  Storing a stereo sample puts the left and the
    right value into the two buffers at the shared index and moves the index
    by one modulo 128; no other slot changes, and the index stays below 128
    after any number of stores.  After exactly 128 stores every slot of both
    buffers holds one of the 128 samples stored, nothing of what the buffers
    held before.  The value stored is in the slot under the old index; it is
    in that slot only when no other slot already holds an equal value. *)
Theorem store_writes_slot_and_advances (mix_l mix_r : R) (w : Waveform)
    (samples : list (R * R)) :
  well_formed w ->
  let w' := store mix_l mix_r w in
  (osc_buffer_l w' !! buffer_index w = Some mix_l /\
   osc_buffer_r w' !! buffer_index w = Some mix_r) /\
  (forall i : nat, i <> buffer_index w ->
     osc_buffer_l w' !! i = osc_buffer_l w !! i /\
     osc_buffer_r w' !! i = osc_buffer_r w !! i) /\
  (buffer_index w'
     = ((buffer_index w + 1) mod kWaveformBufferSize)%nat /\
   (buffer_index w' < kWaveformBufferSize)%nat) /\
  (buffer_index (store_all samples w) < kWaveformBufferSize)%nat /\
  (length samples = kWaveformBufferSize ->
   forall i : nat, (i < kWaveformBufferSize)%nat ->
   exists (k : nat) (s : R * R),
     samples !! k = Some s /\
     i = ((buffer_index w + k) mod kWaveformBufferSize)%nat /\
     osc_buffer_l (store_all samples w) !! i = Some (fst s) /\
     osc_buffer_r (store_all samples w) !! i = Some (snd s)) /\
  ((forall i : nat, i <> buffer_index w -> osc_buffer_l w !! i <> Some mix_l)
   -> forall i : nat,
        osc_buffer_l w' !! i = Some mix_l <-> i = buffer_index w).
Proof.
  intros Hw w'. subst w'.
  pose proof (store_lookup_eq mix_l mix_r w Hw) as Heq.
  pose proof (store_well_formed mix_l mix_r w Hw) as (_ & _ & Hi').
  pose proof (store_all_well_formed samples w Hw) as (_ & _ & Hi'').
  split; [exact Heq|]. split; [by apply store_lookup_ne|].
  split; [by split|]. split; [exact Hi''|]. split.
  - intros Hlen i Hi.
    destruct (store_all_lookup samples w Hw) as (_ & _ & Hin & _).
    { by rewrite Hlen. }
    destruct Hw as (_ & _ & Hc). unfold kWaveformBufferSize in *.
    set (k := ((i + 128 - buffer_index w) mod 128)%nat).
    assert (Hk : (k < length samples)%nat).
    { rewrite Hlen. apply Nat.mod_upper_bound. lia. }
    apply lookup_lt_is_Some in Hk as [s Hs].
    exists k, s. specialize (Hin k s Hs). cbv zeta in Hin.
    subst k. rewrite ring_index_reaches in Hin |- * by done.
    by destruct Hin.
  - intros Hfresh i. split.
    + intros Hl. destruct (decide (i = buffer_index w)) as [|Hne]; [done|].
      destruct (store_lookup_ne mix_l mix_r w i Hne) as [Hsame _].
      rewrite Hsame in Hl. by destruct (Hfresh i Hne).
    + intros ->. apply Heq.
Qed.

Lemma store_writes_slot_and_advances_witness :
  osc_buffer_l (store 1 2 initial) !! 0%nat = Some 1 /\
  buffer_index (store 1 2 initial) = 1%nat /\
  (forall i : nat,
     osc_buffer_l (store 1 2 initial) !! i = Some 1 <-> i = 0%nat).
Proof.
  pose proof (store_writes_slot_and_advances 1 2 initial [] initial_well_formed)
    as (Hslot & _ & Hidx & _ & _ & Hone).
  split; [exact (proj1 Hslot)|]. split; [exact (proj1 Hidx)|].
  apply Hone. intros i Hi Hl.
  apply list_elem_of_lookup_2, elem_of_replicate in Hl as [Hl _].
  lra.
Defined.

(** C5 as the claim has it fails: a value stored twice in a row is in two
    slots of the buffer read next, not in exactly one. *)
Lemma equal_samples_fill_two_slots :
  let w := store 1 1 (store 1 1 initial) in
  osc_buffer_l w !! 0%nat = Some 1 /\
  osc_buffer_l w !! 1%nat = Some 1 /\
  ~ (exists i : nat, forall j : nat,
       osc_buffer_l w !! j = Some 1 <-> j = i).
Proof.
  cbv zeta.
  assert (H0 : osc_buffer_l (store 1 1 (store 1 1 initial)) !! 0%nat = Some 1)
    by reflexivity.
  assert (H1 : osc_buffer_l (store 1 1 (store 1 1 initial)) !! 1%nat = Some 1)
    by reflexivity.
  split; [exact H0|]. split; [exact H1|].
  intros [i Hi]. apply Hi in H0, H1. lia.
Qed.

End Waveform_facts.

(** ** The oscillator bank and the mix *)

Section Mixer_facts.
Import Audio.
Context {Osc : Type} `{Oscillator Osc}.

Lemma Process_split (freq : R) (osc : Osc) :
  Process (SetFreq freq osc) = (sample_at freq osc, advanced freq osc).
Proof. unfold sample_at, advanced. by destruct (Process (SetFreq freq osc)). Qed.

(** The four turns of the loop over [j] and the two scalings. *)
Lemma mix_four (freq : R) (osc0 osc1 osc2 osc3 : Osc) :
  mix freq [osc0; osc1; osc2; osc3] =
    ([advanced (freq / 2) osc0; advanced (freq / 3) osc1;
      advanced (freq / 4) osc2; advanced (freq / 5) osc3],
     (0.5 * (sample_at (freq / 2) osc0 + sample_at (freq / 4) osc2),
      0.5 * (sample_at (freq / 3) osc1 + sample_at (freq / 5) osc3))).
Proof.
  unfold mix, subharmonic_ratios.
  cbn [combine mix_from Nat.modulo Nat.divmod Nat.eqb fst snd Nat.sub].
  rewrite !Process_split. cbn [Nat.eqb].
  f_equal. f_equal; lra.
Qed.

(** C8.  In every frame the four oscillators are tuned to the quantized
    frequency divided by 2, 3, 4 and 5, in this order, and each gives one
    sample; the frame written to the output, and stored in the waveform
    buffers, is half the sum of the samples of oscillators 0 and 2 on the
    left and half the sum of those of oscillators 1 and 3 on the right. *)
Theorem frame_mixes_even_left_odd_right (current_scale_idx : nat)
    (root_note_midi : Z) (pitch_cv : R) (osc0 osc1 osc2 osc3 : Osc)
    (w : Waveform) :
  let freq :=
    Quantizer.Quantize (20 + pitch_cv * 1980)
      current_scale_idx root_note_midi in
  let s0 := sample_at (freq / 2) osc0 in
  let s1 := sample_at (freq / 3) osc1 in
  let s2 := sample_at (freq / 4) osc2 in
  let s3 := sample_at (freq / 5) osc3 in
  frame current_scale_idx root_note_midi pitch_cv
    ([osc0; osc1; osc2; osc3], w)
  = (([advanced (freq / 2) osc0; advanced (freq / 3) osc1;
       advanced (freq / 4) osc2; advanced (freq / 5) osc3],
      store (0.5 * (s0 + s2)) (0.5 * (s1 + s3)) w),
     (0.5 * (s0 + s2), 0.5 * (s1 + s3))).
Proof.
  cbv zeta. unfold frame. cbn [fst snd]. by rewrite mix_four.
Qed.

(** X11.  A block writes one frame to [out] for every frame it processes,
    and stores exactly these frames, in order, in the waveform buffers:
    what the display reads is what was played. *)
Lemma AudioCallback_stores_frames (current_scale_idx : nat)
    (root_note_midi : Z) (pitch_cvs : list R) (st : list Osc * Waveform) :
  let result := AudioCallback current_scale_idx root_note_midi pitch_cvs st in
  snd (fst result) = store_all (snd result) (snd st) /\
  length (snd result) = length pitch_cvs.
Proof.
  cbv zeta. revert st.
  induction pitch_cvs as [|pitch_cv pitch_cvs IH]; intros st; [done|].
  cbn [AudioCallback]. unfold frame.
  destruct (mix _ (fst st)) as [oscs [mix_l mix_r]].
  specialize (IH (oscs, store mix_l mix_r (snd st))).
  destruct (AudioCallback _ _ pitch_cvs _) as [st' outs].
  cbn [fst snd length] in *. destruct IH as [-> Hlen]. by rewrite Hlen.
Qed.

End Mixer_facts.

(** ** The quantizer *)

Section Quantize_facts.
Import Quantizer.

Lemma ln_2_pos : 0 < ln 2.
Proof. pose proof ln_lt_2. lra. Qed.

Lemma log2f_powf (x : R) : log2f (powf 2 x) = x.
Proof.
  unfold log2f, powf. rewrite ln_Rpower. field.
  pose proof ln_2_pos. lra.
Qed.

(** The pitch of the frequency of a MIDI note is that note. *)
Lemma midi_of_MidiToFrequency (z : Z) :
  midi_of_freq (MidiToFrequency z) = IZR z.
Proof.
  unfold midi_of_freq, MidiToFrequency.
  replace (440 * powf 2 ((IZR z - 69) / 12) / 440)
    with (powf 2 ((IZR z - 69) / 12)) by field.
  rewrite log2f_powf. field.
Qed.

Lemma midi_of_440 : midi_of_freq 440 = 69.
Proof.
  unfold midi_of_freq, log2f.
  replace (440 / 440) with 1 by field. rewrite ln_1. lra.
Qed.

Lemma MidiToFrequency_lt (a b : Z) :
  (a < b)%Z -> MidiToFrequency a < MidiToFrequency b.
Proof.
  intros Hab. unfold MidiToFrequency, powf.
  apply Rmult_lt_compat_l; [lra|].
  apply Rpower_lt; [lra|]. apply IZR_lt in Hab. lra.
Qed.

Lemma MidiToFrequency_inj (a b : Z) :
  MidiToFrequency a = MidiToFrequency b -> a = b.
Proof.
  intros Heq. destruct (Z.lt_trichotomy a b) as [Hlt|[->|Hgt]]; [|done|].
  - apply MidiToFrequency_lt in Hlt. lra.
  - apply MidiToFrequency_lt in Hgt. lra.
Qed.

(** An octave up doubles the frequency. *)
Lemma MidiToFrequency_octave (z : Z) :
  MidiToFrequency (z + 12) = 2 * MidiToFrequency z.
Proof.
  unfold MidiToFrequency, powf. rewrite plus_IZR.
  replace ((IZR z + 12 - 69) / 12) with ((IZR z - 69) / 12 + 1) by field.
  rewrite Rpower_plus, Rpower_1 by lra. ring.
Qed.

Lemma Int_part_IZR (z : Z) : Int_part (IZR z) = z.
Proof. symmetry. apply Int_part_spec. lra. Qed.

Lemma int_of_float_IZR (z : Z) : int_of_float (IZR z) = z.
Proof.
  unfold int_of_float. destruct (Rlt_dec (IZR z) 0).
  - rewrite <- opp_IZR, Int_part_IZR. lia.
  - apply Int_part_IZR.
Qed.

(** The two calls that bound the pitch, on a whole pitch. *)
Lemma clamp_IZR (c : Z) :
  Rmax 0 (Rmin 127 (IZR c)) = IZR (Z.max 0 (Z.min 127 c)).
Proof.
  destruct (Z_lt_le_dec c 0) as [Hneg|Hpos];
    [|destruct (Z_le_gt_dec c 127) as [Hle|Hgt]].
  - rewrite Rmin_right by (apply IZR_le; lia).
    rewrite Rmax_left by (apply IZR_le; lia).
    f_equal. lia.
  - rewrite Rmin_right by (apply IZR_le; lia).
    rewrite Rmax_right by (apply IZR_le; lia).
    f_equal. lia.
  - rewrite Rmin_left by (apply IZR_le; lia).
    rewrite Rmax_right by lra.
    f_equal. lia.
Qed.

Lemma abs_le_0 (x : R) : Rabs x <= 0 -> x = 0.
Proof. unfold Rabs. destruct (Rcase_abs x); lra. Qed.

(** [candidate] depends on the pitch only through its octave, and is a whole
    number. *)
Lemma candidate_IZR (midi_note : R) (root note : Z) :
  candidate midi_note (IZR root) note
    = IZR (Int_part (midi_note / 12) * 12 + note + root).
Proof. unfold candidate, floorf. by rewrite !plus_IZR, mult_IZR. Qed.

Lemma scan_snoc (midi_note : R) (cands : list R) (cand closest : R) :
  scan midi_note (cands ++ [cand]) closest
    = closer midi_note (scan midi_note cands closest) cand.
Proof. unfold scan. by rewrite fold_left_app. Qed.

(** What the loop leaves in [closest]: the first of the values it has seen,
    its start value included, that no other value beats; the values before
    it are strictly farther from the pitch. *)
Lemma scan_first_closest {A : Type} (g : A -> R) (midi_note : R)
    (l : list A) (a0 : A) :
  exists (before : list A) (a : A) (after : list A),
    a0 :: l = before ++ a :: after /\
    scan midi_note (map g l) (g a0) = g a /\
    Forall (fun x => Rabs (midi_note - g a) < Rabs (midi_note - g x)) before /\
    Forall (fun x => Rabs (midi_note - g a) <= Rabs (midi_note - g x)) after.
Proof.
  induction l as [|x l IH] using rev_ind.
  { exists [], a0, []. by repeat split. }
  destruct IH as (before & a & after & Hl & Hscan & Hbefore & Hafter).
  rewrite map_app. cbn [map]. rewrite scan_snoc, Hscan. unfold closer.
  destruct (Rlt_dec (Rabs (midi_note - g x)) (Rabs (midi_note - g a)))
    as [Hlt|Hge].
  - exists (a0 :: l), x, []. split; [done|]. split; [done|].
    split; [|constructor].
    rewrite Hl. apply Forall_app. split; [|constructor].
    + eapply Forall_impl; [exact Hbefore|]. cbn. intros y Hy. lra.
    + exact Hlt.
    + eapply Forall_impl; [exact Hafter|]. cbn. intros y Hy. lra.
  - exists before, a, (after ++ [x]).
    split; [by rewrite app_comm_cons, Hl, <- app_assoc|].
    split; [done|]. split; [done|].
    apply Forall_app. split; [done|]. constructor; [lra|constructor].
Qed.

(** So no value the loop has seen is closer than its result. *)
Lemma scan_closest {A : Type} (g : A -> R) (midi_note : R)
    (l : list A) (a0 : A) :
  exists a : A,
    In a (a0 :: l) /\
    scan midi_note (map g l) (g a0) = g a /\
    Forall (fun x => Rabs (midi_note - g a) <= Rabs (midi_note - g x))
      (a0 :: l).
Proof.
  destruct (scan_first_closest g midi_note l a0)
    as (before & a & after & Hl & Hscan & Hbefore & Hafter).
  exists a. rewrite Hl. split; [|split; [done|]].
  - apply in_or_app. right. by left.
  - apply Forall_app. split.
    + eapply Forall_impl; [exact Hbefore|]. cbn. intros y Hy. lra.
    + constructor; [lra|done].
Qed.

(** A value equal to the pitch, once seen, is the result. *)
Lemma scan_hit {A : Type} (g : A -> R) (midi_note : R)
    (l : list A) (a0 x : A) :
  In x (a0 :: l) -> g x = midi_note ->
  scan midi_note (map g l) (g a0) = midi_note.
Proof.
  intros Hx Hg.
  destruct (scan_closest g midi_note l a0) as (a & _ & -> & Hmin).
  rewrite Forall_forall in Hmin. specialize (Hmin x).
  assert (Hle : Rabs (midi_note - g a) <= Rabs (midi_note - g x)).
  { apply Hmin. by apply list_elem_of_In. }
  rewrite Hg, Rminus_diag, Rabs_R0 in Hle.
  apply abs_le_0 in Hle. lra.
Qed.

(** Every scale of the table starts at 0 and lists offsets below 12 in
    strictly ascending order. *)
Lemma scale_at_shape (s : nat) :
  (s < kNumScales)%nat ->
  StronglySorted Z.lt (scale_at s) /\
  Forall (fun o => (0 <= o <= 11)%Z) (scale_at s) /\
  head (scale_at s) = Some 0%Z.
Proof.
  intros Hs. unfold kNumScales in Hs.
  do 25 (destruct s as [|s];
         [split; [repeat constructor|split; [|reflexivity]];
          repeat (constructor; [lia|]); constructor|]).
  lia.
Qed.

(** The candidate pitches of the loop, as whole numbers. *)
Lemma candidates_IZR (midi_note : R) (root : Z) (scale : list Z) :
  map (candidate midi_note (IZR root)) scale
    = map IZR
        (map (fun note => Int_part (midi_note / 12) * 12 + note + root)%Z
           scale).
Proof. rewrite map_map. apply map_ext. intros. apply candidate_IZR. Qed.

(** Once the loop has left the whole pitch [c], the pitch handed to
    [MidiToFrequency] is [c] brought into [0, 127]. *)
Lemma quantized_note_of_closest (midi_note : R) (s : nat) (r c : Z) :
  closest_note midi_note s r = IZR c ->
  quantized_note midi_note s r = Z.max 0 (Z.min 127 c).
Proof.
  intros Hc. unfold quantized_note.
  by rewrite Hc, clamp_IZR, int_of_float_IZR.
Qed.

(** C1, as the code has it.  [Quantize] first computes a pitch, nominally
    12 * log2 (f / 440) + 69, in binary32.  Whatever value [midi_note], not
    negative, that line has computed, the loop looks at the root note first
    and then at the candidates floor (midi_note / 12) * 12 + o + r, for the
    offsets o of the scale in their order, which is ascending.  It keeps the
    first of these pitches that no other one beats: the pitches before it
    are strictly farther from [midi_note], the ones after it are not
    closer.  The pitch kept, brought into [0, 127], is the note whose
    frequency is returned. *)
Theorem Quantize_first_closest (midi_note : R) (s : nat) (r : Z) :
  0 <= midi_note -> (s < kNumScales)%nat -> (0 <= r < 108)%Z ->
  let octave := Int_part (midi_note / 12) in
  StronglySorted Z.lt (scale_at s) /\
  exists (before : list Z) (p : Z) (after : list Z),
    r :: map (fun o => octave * 12 + o + r)%Z (scale_at s)
      = before ++ p :: after /\
    Forall (fun x => Rabs (midi_note - IZR p) < Rabs (midi_note - IZR x))
      before /\
    Forall (fun x => Rabs (midi_note - IZR p) <= Rabs (midi_note - IZR x))
      after /\
    closest_note midi_note s r = IZR p /\
    quantized_note midi_note s r = Z.max 0 (Z.min 127 p).
Proof.
  intros _ Hs _ octave.
  split; [by apply scale_at_shape|].
  destruct (scan_first_closest IZR midi_note
              (map (fun o => octave * 12 + o + r)%Z (scale_at s)) r)
    as (before & p & after & Hl & Hscan & Hbefore & Hafter).
  assert (Hc : closest_note midi_note s r = IZR p).
  { unfold closest_note. rewrite candidates_IZR. exact Hscan. }
  exists before, p, after. split; [done|]. split; [done|]. split; [done|].
  split; [done|]. by apply quantized_note_of_closest.
Qed.

Lemma Quantize_first_closest_witness :
  exists (before : list Z) (p : Z) (after : list Z),
    (69 :: map (fun o => Int_part (40.5 / 12) * 12 + o + 69) (scale_at 0))%Z
      = before ++ p :: after /\
    quantized_note 40.5 0 69 = Z.max 0 (Z.min 127 p).
Proof.
  assert (Hm : 0 <= 40.5) by lra.
  assert (Hs : (0 < kNumScales)%nat) by (unfold kNumScales; lia).
  assert (Hr : (0 <= 69 < 108)%Z) by lia.
  destruct (Quantize_first_closest 40.5 0 69 Hm Hs Hr)
    as (_ & before & p & after & Hl & _ & _ & _ & Hq).
  by exists before, p, after.
Defined.

Lemma Int_part_69_12 : Int_part (69 / 12) = 5%Z.
Proof. symmetry. apply Int_part_spec. lra. Qed.

(** With the root note of power-up, 440 Hz is its own quantization. *)
Lemma Quantize_440_default : Quantize 440 0 69 = MidiToFrequency 69.
Proof.
  unfold Quantize. f_equal. rewrite midi_of_440.
  apply (quantized_note_of_closest 69 0 69 69).
  unfold closest_note. rewrite candidates_IZR.
  apply (scan_hit IZR 69 _ 69%Z 69%Z); [by left|done].
Qed.

(** C1 as the claim has it fails: with the scale and the root note of
    power-up, 440 Hz comes back as the root note 69, which is none of the
    candidates 129, 131, 133, 134, 136, 138, 140 of its octave. *)
Lemma Quantize_returns_root_not_candidate :
  map (fun o => Int_part (midi_of_freq 440 / 12) * 12 + o + 69)%Z (scale_at 0)
    = [129; 131; 133; 134; 136; 138; 140]%Z /\
  Quantize 440 0 69 = MidiToFrequency 69 /\
  ~ (exists o : Z,
       In o (scale_at 0) /\
       Quantize 440 0 69
         = MidiToFrequency (Int_part (midi_of_freq 440 / 12) * 12 + o + 69)).
Proof.
  rewrite midi_of_440, Int_part_69_12, Quantize_440_default.
  split; [reflexivity|]. split; [reflexivity|].
  intros (o & Ho & Heq). apply MidiToFrequency_inj in Heq.
  cbn in Ho. lia.
Qed.

(** C2.  The pitch the loop leaves is brought into [0, 127] before it is
    turned into a frequency: for every frequency above 0 the result is
    440 * 2 ^ ((p - 69) / 12) for a whole pitch p with 0 <= p <= 127, namely
    the pitch left by the loop where that is in the range, 0 below it and
    127 above it; so the result lies between the frequencies of the pitches
    0 and 127. *)
Theorem Quantize_in_midi_range (freq : R) (s : nat) (r : Z) :
  0 < freq -> (s < kNumScales)%nat -> (0 <= r < 108)%Z ->
  exists p : Z,
    (0 <= p <= 127)%Z /\
    Quantize freq s r = 440 * Rpower 2 ((IZR p - 69) / 12) /\
    (exists c : Z,
       closest_note (12 * log2f (freq / 440) + 69) s r = IZR c /\
       p = Z.max 0 (Z.min 127 c)) /\
    MidiToFrequency 0 <= Quantize freq s r <= MidiToFrequency 127.
Proof.
  intros _ _ _.
  destruct (scan_closest IZR (midi_of_freq freq)
              (map (fun o => Int_part (midi_of_freq freq / 12) * 12 + o + r)%Z
                 (scale_at s)) r) as (c & _ & Hscan & _).
  assert (Hc : closest_note (midi_of_freq freq) s r = IZR c).
  { unfold closest_note. by rewrite candidates_IZR. }
  pose proof (quantized_note_of_closest _ s r c Hc) as Hq.
  set (p := Z.max 0 (Z.min 127 c)) in *.
  assert (Hp : (0 <= p <= 127)%Z) by (subst p; lia).
  exists p. split; [done|]. unfold Quantize. rewrite Hq.
  split; [reflexivity|]. split; [by exists c|].
  clearbody p. split.
  - destruct (Z.eq_dec p 0%Z) as [->|Hne]; [lra|].
    apply Rlt_le, MidiToFrequency_lt. lia.
  - destruct (Z.eq_dec p 127%Z) as [->|Hne]; [lra|].
    apply Rlt_le, MidiToFrequency_lt. lia.
Qed.

Lemma Quantize_in_midi_range_witness :
  exists p : Z,
    (0 <= p <= 127)%Z /\
    Quantize 300 0 69 = 440 * Rpower 2 ((IZR p - 69) / 12).
Proof.
  assert (Hf : 0 < 300) by lra.
  assert (Hs : (0 < kNumScales)%nat) by (unfold kNumScales; lia).
  assert (Hr : (0 <= 69 < 108)%Z) by lia.
  destruct (Quantize_in_midi_range 300 0 69 Hf Hs Hr) as (p & Hp & Hq & _).
  by exists p.
Defined.

(** *** Quantizing twice *)

(** Decides a comparison of two distances between numerals. *)
Ltac compare_distances :=
  unfold Rabs; repeat destruct (Rcase_abs _); lra.

Lemma Int_part_73_12 : Int_part (73 / 12) = 6%Z.
Proof. symmetry. apply Int_part_spec. lra. Qed.

(** Scale 0, root note 13, pitch 69: the root note is 56 away, the
    candidates are 73, 75, 77, 78, 80, 82 and 84. *)
Lemma closest_note_69_root_13 : closest_note 69 0 13 = 73.
Proof.
  unfold closest_note. rewrite candidates_IZR, Int_part_69_12.
  destruct (scan_closest IZR 69
              (map (fun o => 5 * 12 + o + 13)%Z (scale_at 0)) 13%Z)
    as (a & Hin & -> & Hmin).
  apply Forall_inv_tail, Forall_inv in Hmin.
  cbn [map scale_at scales nth] in Hin, Hmin.
  change (5 * 12 + 0 + 13)%Z with 73%Z in Hmin. cbv in Hin.
  destruct Hin as [<-|[<-|[<-|[<-|[<-|[<-|[<-|[<-|[]]]]]]]]];
    try reflexivity; exfalso; revert Hmin; compare_distances.
Qed.

(** The same at pitch 73, an octave block higher: the candidates are 85,
    87, 89, 90, 92, 94 and 96. *)
Lemma closest_note_73_root_13 : closest_note 73 0 13 = 85.
Proof.
  unfold closest_note. rewrite candidates_IZR, Int_part_73_12.
  destruct (scan_closest IZR 73
              (map (fun o => 6 * 12 + o + 13)%Z (scale_at 0)) 13%Z)
    as (a & Hin & -> & Hmin).
  apply Forall_inv_tail, Forall_inv in Hmin.
  cbn [map scale_at scales nth] in Hin, Hmin.
  change (6 * 12 + 0 + 13)%Z with 85%Z in Hmin. cbv in Hin.
  destruct Hin as [<-|[<-|[<-|[<-|[<-|[<-|[<-|[<-|[]]]]]]]]];
    try reflexivity; exfalso; revert Hmin; compare_distances.
Qed.

(** C4 as the claim has it fails: with scale 0 and root note 13, 440 Hz is
    quantized to pitch 73, and the frequency of pitch 73 to pitch 85, a
    whole octave higher. *)
Lemma Quantize_twice_octave_up :
  Quantize 440 0 13 = MidiToFrequency 73 /\
  Quantize (Quantize 440 0 13) 0 13 = MidiToFrequency 85 /\
  Quantize (Quantize 440 0 13) 0 13 = 2 * Quantize 440 0 13 /\
  Quantize (Quantize 440 0 13) 0 13 <> Quantize 440 0 13.
Proof.
  assert (H1 : Quantize 440 0 13 = MidiToFrequency 73).
  { unfold Quantize. f_equal. rewrite midi_of_440.
    apply (quantized_note_of_closest 69 0 13 73), closest_note_69_root_13. }
  assert (H2 : Quantize (MidiToFrequency 73) 0 13 = MidiToFrequency 85).
  { unfold Quantize. f_equal. rewrite midi_of_MidiToFrequency.
    apply (quantized_note_of_closest 73 0 13 85), closest_note_73_root_13. }
  rewrite H1, H2. split; [done|]. split; [done|]. split.
  - exact (MidiToFrequency_octave 73).
  - intros Heq. by apply MidiToFrequency_inj in Heq.
Qed.

(** A whole number within half a semitone of a pitch is the only one. *)
Lemma whole_within_half (m : R) (a c : Z) :
  Rabs (m - IZR a) <= Rabs (m - IZR c) -> Rabs (m - IZR c) < 1 / 2 ->
  a = c.
Proof.
  intros Hle Hlt.
  assert (Hd : -1 < IZR a - IZR c < 1).
  { revert Hle Hlt. unfold Rabs. repeat destruct (Rcase_abs _); lra. }
  rewrite <- minus_IZR in Hd. destruct Hd as [Hd1 Hd2].
  apply lt_IZR in Hd1, Hd2. lia.
Qed.

(** C4, as the code has it.  Let the first call compute the pitch
    [midi_note] and keep the pitch [closest], which needs no clamping, and
    let the second call compute the pitch [midi_note'] from the frequency
    returned.  The second call returns the same note, hence the same
    frequency, whenever [midi_note'] is within half a semitone of [closest]
    (the tolerance of the two conversions) and [closest] is the root note
    or [midi_note'] lies in the octave block of [midi_note] (the same floor
    of pitch / 12): then [closest] is among the pitches the second loop
    sees, and every other one is at least half a semitone farther. *)
Theorem Quantize_again_keeps_note (midi_note midi_note' : R) (s : nat)
    (r : Z) :
  0 <= midi_note -> 0 <= midi_note' ->
  (s < kNumScales)%nat -> (0 <= r < 108)%Z ->
  let closest := closest_note midi_note s r in
  0 <= closest <= 127 ->
  Rabs (midi_note' - closest) < 1 / 2 ->
  closest = IZR r \/
  Int_part (midi_note' / 12) = Int_part (midi_note / 12) ->
  quantized_note midi_note' s r = quantized_note midi_note s r /\
  MidiToFrequency (quantized_note midi_note' s r)
    = MidiToFrequency (quantized_note midi_note s r).
Proof.
  intros _ _ _ _ closest Hrange Hnear Hcase.
  assert (Hnote : quantized_note midi_note' s r = quantized_note midi_note s r);
    [|by rewrite Hnote].
  destruct (scan_closest IZR midi_note
              (map (fun o => Int_part (midi_note / 12) * 12 + o + r)%Z
                 (scale_at s)) r) as (c & Hin & Hscan & _).
  assert (Hc : closest = IZR c).
  { subst closest. unfold closest_note. by rewrite candidates_IZR. }
  rewrite Hc in Hrange, Hnear, Hcase.
  rewrite (quantized_note_of_closest midi_note s r c Hc).
  apply quantized_note_of_closest.
  destruct (scan_closest IZR midi_note'
              (map (fun o => Int_part (midi_note' / 12) * 12 + o + r)%Z
                 (scale_at s)) r) as (a & _ & Hscan' & Hmin).
  unfold closest_note. rewrite candidates_IZR, Hscan'. f_equal.
  apply (whole_within_half midi_note'); [|done].
  rewrite Forall_forall in Hmin. apply Hmin, list_elem_of_In.
  destruct Hcase as [Hroot|Hoctave].
  - apply eq_IZR in Hroot. by left.
  - by rewrite Hoctave.
Qed.

Lemma closest_note_69_root_0 : closest_note 69 0 0 = 69.
Proof.
  unfold closest_note. rewrite candidates_IZR, Int_part_69_12.
  apply (scan_hit IZR 69 _ 0%Z 69%Z); [|done].
  right. cbn. tauto.
Qed.

Lemma Int_part_69_25_12 : Int_part (69.25 / 12) = 5%Z.
Proof. symmetry. apply Int_part_spec. lra. Qed.

Lemma Quantize_again_keeps_note_witness :
  quantized_note 69.25 0 0 = quantized_note 69 0 0.
Proof.
  assert (Hm : 0 <= 69) by lra.
  assert (Hm' : 0 <= 69.25) by lra.
  assert (Hs : (0 < kNumScales)%nat) by (unfold kNumScales; lia).
  assert (Hr : (0 <= 0 < 108)%Z) by lia.
  refine (proj1 (Quantize_again_keeps_note 69 69.25 0 0 Hm Hm' Hs Hr _ _ _)).
  - rewrite closest_note_69_root_0. lra.
  - rewrite closest_note_69_root_0. unfold Rabs.
    destruct (Rcase_abs _); lra.
  - right. by rewrite Int_part_69_25_12, Int_part_69_12.
Defined.

(** *** The root note of power-up *)

(** With root note 69 every candidate lies at least 57 above the pitch, so
    for the pitches 0 to 126 the loop keeps the root note, whatever the
    scale. *)
Lemma closest_note_default_root (midi_note : R) (s : nat) :
  0 <= midi_note <= 126 -> (s < kNumScales)%nat ->
  closest_note midi_note s 69 = 69.
Proof.
  intros Hm Hs. unfold closest_note. rewrite candidates_IZR.
  destruct (scan_closest IZR midi_note
              (map (fun o => Int_part (midi_note / 12) * 12 + o + 69)%Z
                 (scale_at s)) 69%Z) as (a & Hin & -> & Hmin).
  apply Forall_inv in Hmin.
  destruct Hin as [<-|Hin]; [done|].
  apply in_map_iff in Hin as (o & <- & Ho).
  destruct (scale_at_shape s Hs) as (_ & Hoff & _).
  rewrite Forall_forall in Hoff.
  assert (Ho0 : 0 <= IZR o).
  { apply IZR_le. apply list_elem_of_In, Hoff in Ho. lia. }
  destruct (base_Int_part (midi_note / 12)) as [Hlo Hhi].
  assert (Hb0 : 0 <= IZR (Int_part (midi_note / 12))).
  { apply IZR_le. assert (-1 < Int_part (midi_note / 12))%Z; [|lia].
    apply lt_IZR. lra. }
  rewrite !plus_IZR, mult_IZR in *.
  revert Hmin. unfold Rabs. repeat destruct (Rcase_abs _); lra.
Qed.

Lemma ln_8 : ln 8 = 3 * ln 2.
Proof.
  replace 8 with (2 ^ 3) by lra. rewrite ln_pow by lra. cbn [INR]. lra.
Qed.

Lemma ln_inv_32 : ln (/ 32) = - (5 * ln 2).
Proof.
  rewrite ln_Rinv by lra. replace 32 with (2 ^ 5) by lra.
  rewrite ln_pow by lra. cbn [INR]. lra.
Qed.

(** The frequencies [AudioCallback] asks for, 20 Hz to 2000 Hz, have their
    pitch in that range. *)
Lemma midi_of_freq_audio_range (freq : R) :
  20 <= freq <= 2000 -> 0 <= midi_of_freq freq <= 126.
Proof.
  intros Hf. unfold midi_of_freq, log2f.
  pose proof ln_2_pos as Hln2.
  assert (Hlo : - (5 * ln 2) <= ln (freq / 440)).
  { rewrite <- ln_inv_32.
    destruct (Req_dec (/ 32) (freq / 440)) as [->|Hne]; [lra|].
    apply Rlt_le, ln_increasing; lra. }
  assert (Hhi : ln (freq / 440) <= 3 * ln 2).
  { rewrite <- ln_8.
    destruct (Req_dec (freq / 440) 8) as [->|Hne]; [lra|].
    apply Rlt_le, ln_increasing; lra. }
  set (x := ln (freq / 440)) in *.
  assert (Hq : -5 <= x / ln 2 <= 3).
  { split.
    - apply Rmult_le_reg_r with (ln 2); [done|].
      replace (x / ln 2 * ln 2) with x by (field; lra). lra.
    - apply Rmult_le_reg_r with (ln 2); [done|].
      replace (x / ln 2 * ln 2) with x by (field; lra). lra. }
  lra.
Qed.

(** X5.  With the root note of power-up, 69, every frequency
    [AudioCallback] asks for (20 Hz to 2000 Hz) is quantized to 440 Hz, for
    every scale: until the root note is changed in the menu, the pitch
    control has no effect. *)
Lemma Quantize_default_root_constant (freq : R) (s : nat) :
  20 <= freq <= 2000 -> (s < kNumScales)%nat ->
  Quantize freq s 69 = 440.
Proof.
  intros Hf Hs. unfold Quantize.
  rewrite (quantized_note_of_closest _ s 69 69).
  - change (Z.max 0 (Z.min 127 69)) with 69%Z.
    unfold MidiToFrequency, powf.
    replace ((69 - 69) / 12) with 0 by lra.
    rewrite Rpower_O by lra. lra.
  - apply closest_note_default_root; [|done].
    by apply midi_of_freq_audio_range.
Qed.

End Quantize_facts.

(** * Further properties *)

(** ** Notes and frequencies *)

Section Frequency_facts.
Import Quantizer.

Lemma ln_pow_lt (x y : R) (n : nat) :
  0 < x -> x ^ n < y -> IZR (Z.of_nat n) * ln x < ln y.
Proof.
  intros Hx Hlt. rewrite <- INR_IZR_INZ, <- ln_pow by done.
  apply ln_increasing; [by apply pow_lt|done].
Qed.

(** A semitone is more than 5 % of the frequency. *)
Lemma semitone_ratio : 1.05 < Rpower 2 (1 / 12).
Proof.
  assert (H : 1.05 ^ 12 < 2) by (cbn [pow]; lra).
  apply ln_pow_lt in H; [|lra]. change (Z.of_nat 12) with 12%Z in H.
  unfold Rpower. rewrite <- (exp_ln 1.05) at 1 by lra.
  apply exp_increasing. lra.
Qed.

Lemma MidiToFrequency_semitone (z : Z) :
  MidiToFrequency (z + 1) = Rpower 2 (1 / 12) * MidiToFrequency z.
Proof.
  unfold MidiToFrequency, powf. rewrite plus_IZR.
  replace ((IZR z + 1 - 69) / 12) with ((IZR z - 69) / 12 + 1 / 12) by field.
  rewrite Rpower_plus. ring.
Qed.

Lemma MidiToFrequency_0_above : 8 < MidiToFrequency 0.
Proof.
  assert (H : 2 ^ 69 < 55 ^ 12) by (cbn [pow]; lra).
  apply ln_pow_lt in H; [|lra].
  rewrite ln_pow, INR_IZR_INZ in H by lra.
  change (Z.of_nat 69) with 69%Z in H. change (Z.of_nat 12) with 12%Z in H.
  unfold MidiToFrequency, powf, Rpower.
  replace 8 with (440 * exp (ln (/ 55))).
  - apply Rmult_lt_compat_l; [lra|]. apply exp_increasing.
    rewrite ln_Rinv by lra. lra.
  - rewrite exp_ln; [field|]. apply Rinv_0_lt_compat. lra.
Qed.

Lemma MidiToFrequency_127_below : MidiToFrequency 127 < 13000.
Proof.
  assert (H : 2 ^ 58 < 29.5 ^ 12) by (cbn [pow]; lra).
  apply ln_pow_lt in H; [|lra].
  rewrite ln_pow, INR_IZR_INZ in H by lra.
  change (Z.of_nat 58) with 58%Z in H. change (Z.of_nat 12) with 12%Z in H.
  unfold MidiToFrequency, powf, Rpower.
  apply Rlt_trans with (440 * exp (ln 29.5)).
  - apply Rmult_lt_compat_l; [lra|]. apply exp_increasing. lra.
  - rewrite exp_ln by lra. lra.
Qed.

(** X1.  On the notes 0 to 127, the ones [Quantize] passes to it,
    [MidiToFrequency] keeps the order with room to spare: the frequencies
    lie between 8 Hz and 13000 Hz, far from the ends of binary32, and a
    higher note has a frequency more than 5 % above that of a lower one, so
    no two notes share a frequency. *)
Theorem MidiToFrequency_order (a b : Z) :
  (0 <= a)%Z -> (a < b)%Z -> (b <= 127)%Z ->
  8 < MidiToFrequency a /\
  1.05 * MidiToFrequency a < MidiToFrequency b /\
  MidiToFrequency b < 13000.
Proof.
  intros Ha Hab Hb.
  assert (Hlo : 8 < MidiToFrequency a).
  { pose proof MidiToFrequency_0_above.
    destruct (Z.eq_dec a 0%Z) as [->|Hne]; [done|].
    assert (MidiToFrequency 0 < MidiToFrequency a)
      by (apply MidiToFrequency_lt; lia).
    lra. }
  split; [done|]. split.
  - pose proof semitone_ratio as Hr.
    pose proof (MidiToFrequency_semitone a) as Hs.
    assert (Hle : MidiToFrequency (a + 1) <= MidiToFrequency b).
    { destruct (Z.eq_dec (a + 1)%Z b) as [<-|Hne]; [lra|].
      apply Rlt_le, MidiToFrequency_lt. lia. }
    assert (1.05 * MidiToFrequency a < Rpower 2 (1 / 12) * MidiToFrequency a).
    { apply Rmult_lt_compat_r; lra. }
    lra.
  - pose proof MidiToFrequency_127_below.
    destruct (Z.eq_dec b 127%Z) as [->|Hne]; [done|].
    assert (MidiToFrequency b < MidiToFrequency 127)
      by (apply MidiToFrequency_lt; lia).
    lra.
Qed.

Lemma MidiToFrequency_order_witness :
  8 < MidiToFrequency 60 /\
  1.05 * MidiToFrequency 60 < MidiToFrequency 61 /\
  MidiToFrequency 61 < 13000.
Proof. apply MidiToFrequency_order; lia. Defined.

End Frequency_facts.

(** ** More on the quantizer *)

Section Quantize_more.
Import Quantizer.

(** X4.  The pitch the loop of [Quantize] leaves is always a degree of the
    scale transposed to the root note: its distance from the root note is,
    modulo 12, one of the offsets of the scale.  When it needs no clamping
    it is the pitch whose frequency is returned. *)
Theorem Quantize_leaves_scale_degree (freq : R) (s : nat) (r : Z) :
  0 < freq -> (s < kNumScales)%nat ->
  exists c : Z,
    closest_note (midi_of_freq freq) s r = IZR c /\
    In ((c - r) mod 12)%Z (scale_at s) /\
    ((0 <= c <= 127)%Z -> Quantize freq s r = MidiToFrequency c).
Proof.
  intros _ Hs.
  destruct (scan_closest IZR (midi_of_freq freq)
              (map (fun o => Int_part (midi_of_freq freq / 12) * 12 + o + r)%Z
                 (scale_at s)) r) as (c & Hin & Hscan & _).
  assert (Hc : closest_note (midi_of_freq freq) s r = IZR c).
  { unfold closest_note. by rewrite candidates_IZR. }
  exists c. split; [done|]. split.
  - destruct (scale_at_shape s Hs) as (_ & Hoff & Hhead).
    destruct Hin as [<-|Hin].
    + rewrite Z.sub_diag. change (0 mod 12)%Z with 0%Z.
      destruct (scale_at s) as [|o l]; [done|].
      injection Hhead as ->. by left.
    + apply in_map_iff in Hin as (o & <- & Ho).
      rewrite Forall_forall in Hoff.
      pose proof (Hoff o (proj2 (list_elem_of_In _ _) Ho)) as Hrange.
      replace (Int_part (midi_of_freq freq / 12) * 12 + o + r - r)%Z
        with (o + Int_part (midi_of_freq freq / 12) * 12)%Z by lia.
      rewrite Z_mod_plus_full, Z.mod_small by lia. done.
  - intros Hrange. unfold Quantize.
    rewrite (quantized_note_of_closest _ s r c Hc). f_equal. lia.
Qed.

Lemma Quantize_leaves_scale_degree_witness :
  exists c : Z,
    closest_note (midi_of_freq 300) 2 7 = IZR c /\
    In ((c - 7) mod 12)%Z [0; 2; 5; 7; 9]%Z.
Proof.
  assert (Hf : 0 < 300) by lra.
  assert (Hs : (2 < kNumScales)%nat) by (unfold kNumScales; lia).
  destruct (Quantize_leaves_scale_degree 300 2 7 Hf Hs) as (c & Hc & Hin & _).
  by exists c.
Defined.

Lemma Quantize_default_root_constant_witness :
  Quantize 300 0 69 = 440 /\ Quantize 1000 9 69 = 440.
Proof.
  split; apply Quantize_default_root_constant;
    try lra; unfold kNumScales; lia.
Defined.

End Quantize_more.

(** ** More on the encoder and the menu *)

Section Menu_more.
Import UI.

(** A call shows or hides the menu exactly when it reads a click. *)
Lemma UpdateEncoder_menu_active (enc : Encoder) (st : State) :
  menu_active (UpdateEncoder enc st)
    = xorb (menu_active st) (RisingEdge enc).
Proof.
  destruct (RisingEdge enc) eqn:Hc.
  - destruct (menu_active st) eqn:Ha.
    + by destruct (click_closes_menu enc st Hc Ha) as [-> _].
    + by destruct (click_opens_menu enc st Hc Ha) as [-> _].
  - rewrite UpdateEncoder_keeps_menu by done. by destruct (menu_active st).
Qed.

(** X7.  A run changes whether the menu is shown exactly when it reads an
    odd number of clicks (from power-up: the menu is shown exactly after an
    odd number of clicks); no increment and no press shows or hides it. *)
Theorem menu_shown_iff_odd_clicks (encs : list Encoder) (st : State) :
  menu_active (run encs st)
    = xorb (menu_active st) (Nat.odd (clicks encs)).
Proof.
  revert st. induction encs as [|enc encs IH]; intros st.
  { change (run [] st) with st. by destruct (menu_active st). }
  rewrite run_cons, IH, UpdateEncoder_menu_active.
  unfold clicks. cbn [List.filter].
  destruct (RisingEdge enc); cbn [length].
  - rewrite Nat.odd_succ, <- Nat.negb_odd.
    by destruct (menu_active st), (Nat.odd _).
  - by destruct (menu_active st), (Nat.odd _).
Qed.

(** X8.  In the menu, over calls that read no click and no press, the two
    selections depend only on the signed number of detents, not on their
    order: two such runs with the same number end on the same scale and the
    same root note.  In particular a detent up and a detent down cancel. *)
Theorem menu_selection_depends_on_net_turns (encs1 encs2 : list Encoder)
    (st : State) :
  in_range st -> menu_active st = true ->
  Forall quiet encs1 -> Forall quiet encs2 ->
  net_turns encs1 = net_turns encs2 ->
  current_scale_idx (run encs1 st) = current_scale_idx (run encs2 st) /\
  root_note_midi (run encs1 st) = root_note_midi (run encs2 st).
Proof.
  intros Hin Ha Hq1 Hq2 Hnet.
  destruct (run_in_menu_turns encs1 st Hin Ha Hq1) as [_ H1].
  destruct (run_in_menu_turns encs2 st Hin Ha Hq2) as [_ H2].
  rewrite Hnet in H1.
  destruct (menu_state st).
  - destruct H1 as [Hs1 ->], H2 as [Hs2 ->]. split; [|done].
    apply Nat2Z.inj. by rewrite Hs1, Hs2.
  - destruct H1 as [-> ->], H2 as [-> ->]. done.
Qed.

Lemma menu_selection_depends_on_net_turns_witness :
  root_note_midi
    (run [turn 1; turn (-1)] (UpdateEncoder (click true) initial))
  = root_note_midi (run [] (UpdateEncoder (click true) initial)).
Proof.
  refine (proj2 (menu_selection_depends_on_net_turns
                   [turn 1; turn (-1)] []
                   (UpdateEncoder (click true) initial)
                   _ eq_refl _ _ eq_refl)).
  - apply reachable_in_range, reachable_step, reachable_initial.
  - by repeat constructor.
  - constructor.
Defined.

Lemma reachable_run (encs : list Encoder) (st : State) :
  reachable st -> reachable (run encs st).
Proof.
  revert st. induction encs as [|enc encs IH]; intros st Hst; [done|].
  rewrite run_cons. by apply IH, reachable_step.
Qed.

(** Calls that read the button up leave the flag clear. *)
Lemma run_quiet_flag (encs : list Encoder) (st : State) :
  menu_active st = true -> last_encoder_pressed st = false ->
  Forall quiet encs -> last_encoder_pressed (run encs st) = false.
Proof.
  intros Ha Hl Hall. revert st Ha Hl.
  induction Hall as [|enc encs [Hc Hp] _ IH]; intros st Ha Hl; [done|].
  rewrite run_cons. apply IH.
  - by rewrite UpdateEncoder_keeps_menu.
  - destruct (UpdateEncoder_in_menu_page enc st Hc Ha) as [_ ->]. done.
Qed.

Lemma replicate_turn_quiet (n : nat) (inc : Z) :
  Forall quiet (replicate n (turn inc)).
Proof. apply Forall_replicate. by split. Qed.

Lemma net_turns_replicate_up (n : nat) :
  net_turns (replicate n (turn 1)) = Z.of_nat n.
Proof.
  rewrite net_turns_up.
  - by rewrite length_replicate.
  - apply Forall_replicate. reflexivity.
Qed.

(** X9.  Every scale of the table and every root note from 0 to 107 can be
    selected: from power-up, a click, the detents to the scale, a press and
    the detents to the root note end, with the menu shown, in a state with
    exactly that scale and root note. *)
Theorem every_selection_reachable (s : nat) (r : Z) :
  (s < kNumScales)%nat -> (0 <= r < 108)%Z ->
  let st := run (select_inputs s r) initial in
  reachable st /\ menu_active st = true /\
  current_scale_idx st = s /\ root_note_midi st = r.
Proof.
  intros Hs Hr st. subst st.
  split; [apply reachable_run, reachable_initial|].
  unfold select_inputs. rewrite !run_app.
  set (st1 := run [click false] initial).
  assert (Hst1 : st1 = with_menu_active true initial) by reflexivity.
  assert (Hin1 : in_range st1).
  { apply reachable_in_range, reachable_run, reachable_initial. }
  assert (Ha1 : menu_active st1 = true) by reflexivity.
  (* the detents to the scale *)
  destruct (run_in_menu_turns (replicate s (turn 1)) st1 Hin1 Ha1
              (replicate_turn_quiet s 1)) as [Hp2 Hsel2].
  set (st2 := run (replicate s (turn 1)) st1) in *.
  assert (Ha2 : menu_active st2 = true).
  { subst st2. rewrite run_keeps_menu; [done|].
    apply Forall_replicate. reflexivity. }
  assert (Hl2 : last_encoder_pressed st2 = false).
  { apply run_quiet_flag; [done..|apply replicate_turn_quiet]. }
  assert (Hin2 : in_range st2).
  { apply reachable_in_range, reachable_run, reachable_run,
      reachable_initial. }
  change (menu_state st1) with SCALE_SELECTION in Hp2, Hsel2.
  destruct Hsel2 as [Hs2 Hr2].
  rewrite net_turns_replicate_up in Hs2.
  change (current_scale_idx st1) with 0%nat in Hs2.
  change (root_note_midi st1) with 69%Z in Hr2.
  unfold kNumScales in Hs.
  rewrite Z.add_0_l, Z.mod_small in Hs2 by lia.
  apply Nat2Z.inj in Hs2.
  (* the press *)
  set (st3 := run [held] st2).
  assert (Hst3 : st3 = UpdateEncoder held st2) by reflexivity.
  destruct (UpdateEncoder_in_menu_page held st2 eq_refl Ha2) as [Hp3 _].
  rewrite Hl2, Hp2 in Hp3. cbn in Hp3.
  pose proof (UpdateEncoder_in_menu_turn held st2 Hin2 eq_refl Ha2) as Hsel3.
  rewrite Hp2 in Hsel3. destruct Hsel3 as [Hs3 Hr3].
  cbn [Increment held Z.sgn] in Hs3.
  rewrite Z.add_0_r, Z.mod_small in Hs3 by lia.
  apply Nat2Z.inj in Hs3.
  rewrite <- Hst3 in Hp3, Hs3, Hr3.
  assert (Ha3 : menu_active st3 = true).
  { rewrite Hst3. by rewrite UpdateEncoder_keeps_menu. }
  assert (Hin3 : in_range st3).
  { apply reachable_in_range, reachable_run, reachable_run, reachable_run,
      reachable_initial. }
  (* the detents to the root note *)
  set (n := Z.to_nat ((r - 69) mod 108)).
  destruct (run_in_menu_turns (replicate n (turn 1)) st3 Hin3 Ha3
              (replicate_turn_quiet n 1)) as [_ Hsel4].
  rewrite Hp3 in Hsel4. destruct Hsel4 as [Hr4 Hs4].
  split.
  { rewrite run_keeps_menu; [done|]. apply Forall_replicate. reflexivity. }
  split; [by rewrite Hs4, Hs3, Hs2|].
  rewrite Hr4, Hr3, Hr2, net_turns_replicate_up. subst n.
  rewrite Z2Nat.id by (apply Z.mod_pos_bound; lia).
  rewrite Zplus_mod_idemp_r.
  replace (69 + (r - 69))%Z with r by lia.
  apply Z.mod_small. lia.
Qed.

Lemma every_selection_reachable_witness :
  current_scale_idx (run (select_inputs 9 0) initial) = 9%nat /\
  root_note_midi (run (select_inputs 9 0) initial) = 0%Z.
Proof.
  assert (Hs : (9 < kNumScales)%nat) by (unfold kNumScales; lia).
  assert (Hr : (0 <= 0 < 108)%Z) by lia.
  destruct (every_selection_reachable 9 0 Hs Hr) as (_ & _ & H1 & H2).
  by split.
Defined.

(** The earlier [UpdateEncoder] too leaves the menu alone without a
    click. *)
Lemma earlier_keeps_menu (enc : Encoder) (st : State) :
  RisingEdge enc = false ->
  menu_active (Earlier.UpdateEncoder enc st) = menu_active st.
Proof.
  intros Hc. unfold Earlier.UpdateEncoder. rewrite Hc.
  destruct (menu_active st) eqn:Ha.
  - unfold Earlier.press_in_menu, Earlier.turn_in_menu.
    destruct (Pressed enc), (Increment enc >? 0)%Z, (Increment enc <? 0)%Z,
      (menu_state st); by cbn.
  - by destruct (turn_in_view_frame (Increment enc) st) as [-> _].
Qed.

(** X10.  In the earlier revision, which has no flag, every call that reads
    the button down while the menu is shown turns the page: after a hold of
    [n] calls the page has changed exactly when [n] is odd. *)
Theorem earlier_hold_turns_page_by_parity (encs : list Encoder)
    (st : State) :
  menu_active st = true ->
  Forall (fun enc => RisingEdge enc = false /\ Pressed enc = true) encs ->
  menu_state (fold_left (fun st enc => Earlier.UpdateEncoder enc st) encs st)
    = if Nat.odd (length encs) then other_page (menu_state st)
      else menu_state st.
Proof.
  intros Ha Hall. revert st Ha.
  induction Hall as [|enc encs [Hc Hp] _ IH]; intros st Ha; [done|].
  cbn [fold_left length]. rewrite IH by by rewrite earlier_keeps_menu.
  rewrite earlier_held_button_turns_page_each_call by done.
  rewrite Nat.odd_succ, <- Nat.negb_odd.
  destruct (Nat.odd (length encs)); cbn; by rewrite ?other_page_involutive.
Qed.

Lemma earlier_hold_turns_page_by_parity_witness :
  menu_state
    (fold_left (fun st enc => Earlier.UpdateEncoder enc st) [held; held]
       (toggle_menu initial))
  = SCALE_SELECTION.
Proof.
  refine (earlier_hold_turns_page_by_parity [held; held]
            (toggle_menu initial) eq_refl _).
  by repeat constructor.
Defined.

End Menu_more.

(** ** More on the waveform buffers and the audio block *)

Section Waveform_more.
Import Audio.

Lemma store_all_app (xs ys : list (R * R)) (w : Waveform) :
  store_all (xs ++ ys) w = store_all ys (store_all xs w).
Proof. unfold store_all. by rewrite fold_left_app. Qed.

(** The index after any number of stores. *)
Lemma store_all_index (samples : list (R * R)) (w : Waveform) :
  well_formed w ->
  buffer_index (store_all samples w)
    = ((buffer_index w + length samples) mod 128)%nat.
Proof.
  revert w. induction samples as [|s samples IH]; intros w Hw.
  { change (store_all [] w) with w. cbn [length].
    destruct Hw as (_ & _ & Hc). unfold kWaveformBufferSize in Hc.
    rewrite Nat.add_0_r, Nat.mod_small; lia. }
  rewrite store_all_cons, IH by by apply store_well_formed.
  change (buffer_index (store (fst s) (snd s) w))
    with ((buffer_index w + 1) mod 128)%nat.
  by rewrite ring_index_shift.
Qed.

(** X13.  The buffers keep the most recent 128 samples: after any number
    of stores, each of the last 128 samples stored is in the slot its
    position maps to, whatever the buffers held before and however many
    older samples were stored and overwritten. *)
Theorem store_all_keeps_latest (samples : list (R * R)) (w : Waveform)
    (k : nat) (s : R * R) :
  well_formed w ->
  samples !! k = Some s ->
  (length samples <= k + kWaveformBufferSize)%nat ->
  let i := ((buffer_index w + k) mod kWaveformBufferSize)%nat in
  osc_buffer_l (store_all samples w) !! i = Some (fst s) /\
  osc_buffer_r (store_all samples w) !! i = Some (snd s).
Proof.
  intros Hw Hk Hrecent. cbv zeta. unfold kWaveformBufferSize in *.
  set (n := (length samples - 128)%nat).
  rewrite <- (take_drop n samples), store_all_app.
  assert (Hwn : well_formed (store_all (take n samples) w))
    by by apply store_all_well_formed.
  pose proof (lookup_lt_Some _ _ _ Hk) as Hklen.
  destruct (store_all_lookup (drop n samples) _ Hwn)
    as (_ & _ & Hin & _).
  { rewrite length_drop. unfold kWaveformBufferSize. lia. }
  specialize (Hin (k - n)%nat s). cbv zeta in Hin.
  rewrite store_all_index, length_take in Hin by done.
  unfold kWaveformBufferSize in Hin.
  replace (((buffer_index w + n `min` length samples) mod 128
            + (k - n)) mod 128)%nat
    with ((buffer_index w + k) mod 128)%nat in Hin.
  - apply Hin. rewrite lookup_drop. rewrite <- Hk. f_equal. lia.
  - rewrite Nat.Div0.add_mod_idemp_l. f_equal. lia.
Qed.

Lemma store_all_keeps_latest_witness :
  osc_buffer_l (store_all (replicate 200 (1, 2)) initial) !! 71%nat
    = Some 1.
Proof.
  refine (proj1 (store_all_keeps_latest (replicate 200 (1, 2)) initial
                   199 (1, 2) initial_well_formed _ _)).
  - apply lookup_replicate_2. lia.
  - rewrite length_replicate. unfold kWaveformBufferSize. lia.
Defined.

Lemma store_in_unit_range (mix_l mix_r : R) (w : Waveform) :
  -1 <= mix_l <= 1 -> -1 <= mix_r <= 1 ->
  in_unit_range w -> in_unit_range (store mix_l mix_r w).
Proof.
  intros Hl Hr [Hwl Hwr]. split; cbn [store osc_buffer_l osc_buffer_r].
  - by apply Forall_insert.
  - by apply Forall_insert.
Qed.

Lemma initial_in_unit_range : in_unit_range initial.
Proof. split; apply Forall_replicate; lra. Qed.

End Waveform_more.

Section Block_facts.
Import Audio.
Context {Osc : Type} `{Oscillator Osc}.

(** X12.  Blocks compose: processing the frames of two blocks one after
    the other is processing them as one block, so the block size the audio
    driver picks does not change what is played or stored. *)
Theorem AudioCallback_app (current_scale_idx : nat) (root_note_midi : Z)
    (cvs1 cvs2 : list R) (st : list Osc * Waveform) :
  AudioCallback current_scale_idx root_note_midi (cvs1 ++ cvs2) st
  = let first := AudioCallback current_scale_idx root_note_midi cvs1 st in
    let second :=
      AudioCallback current_scale_idx root_note_midi cvs2 (fst first) in
    (fst second, snd first ++ snd second).
Proof.
  cbv zeta. revert st.
  induction cvs1 as [|cv cvs1 IH]; intros st.
  { cbn [app AudioCallback fst snd].
    by destruct (AudioCallback _ _ cvs2 st). }
  cbn [app AudioCallback].
  destruct (frame _ _ cv st) as [st1 out].
  rewrite IH.
  destruct (AudioCallback _ _ cvs1 st1) as [st2 outs].
  cbn [fst snd].
  by destruct (AudioCallback _ _ cvs2 st2).
Qed.

(** One frame of an oscillator bank whose samples stay in [-1, 1]. *)
Lemma frame_in_unit_range (current_scale_idx : nat) (root_note_midi : Z)
    (pitch_cv : R) (st : list Osc * Waveform) :
  (forall osc : Osc, -1 <= fst (Process osc) <= 1) ->
  length (fst st) = kNumSubharmonics ->
  in_unit_range (snd st) ->
  let result := frame current_scale_idx root_note_midi pitch_cv st in
  (-1 <= fst (snd result) <= 1 /\ -1 <= snd (snd result) <= 1) /\
  length (fst (fst result)) = kNumSubharmonics /\
  in_unit_range (snd (fst result)).
Proof.
  intros Hosc Hlen Hw. cbv zeta.
  destruct st as [oscs w]. cbn [fst snd] in *.
  destruct oscs as [|o0 [|o1 [|o2 [|o3 [|o4 oscs]]]]]; try discriminate.
  unfold frame. cbn [fst snd]. rewrite mix_four. cbn [fst snd].
  set (freq := Quantizer.Quantize _ _ _).
  pose proof (Hosc (SetFreq (freq / 2) o0)) as H0.
  pose proof (Hosc (SetFreq (freq / 3) o1)) as H1.
  pose proof (Hosc (SetFreq (freq / 4) o2)) as H2.
  pose proof (Hosc (SetFreq (freq / 5) o3)) as H3.
  fold (sample_at (freq / 2) o0) in H0. fold (sample_at (freq / 3) o1) in H1.
  fold (sample_at (freq / 4) o2) in H2. fold (sample_at (freq / 5) o3) in H3.
  assert (Hl : -1 <= 0.5 * (sample_at (freq / 2) o0 + sample_at (freq / 4) o2)
               <= 1) by lra.
  assert (Hr : -1 <= 0.5 * (sample_at (freq / 3) o1 + sample_at (freq / 5) o3)
               <= 1) by lra.
  split; [done|]. split; [done|]. by apply store_in_unit_range.
Qed.

(** X14.  The mix does not clip: when the samples of the oscillators stay
    in [-1, 1], every frame a block writes to [out] has both channels in
    [-1, 1], and so has every sample in the waveform buffers after the
    block, if it was so before (as it is at power-up). *)
Theorem AudioCallback_in_unit_range (current_scale_idx : nat)
    (root_note_midi : Z) (pitch_cvs : list R) (st : list Osc * Waveform) :
  (forall osc : Osc, -1 <= fst (Process osc) <= 1) ->
  length (fst st) = kNumSubharmonics ->
  in_unit_range (snd st) ->
  let result := AudioCallback current_scale_idx root_note_midi pitch_cvs st in
  Forall (fun out => -1 <= fst out <= 1 /\ -1 <= snd out <= 1) (snd result) /\
  length (fst (fst result)) = kNumSubharmonics /\
  in_unit_range (snd (fst result)).
Proof.
  intros Hosc. cbv zeta. revert st.
  induction pitch_cvs as [|cv cvs IH]; intros st Hlen Hw.
  { cbn [AudioCallback fst snd]. by split. }
  cbn [AudioCallback].
  pose proof (frame_in_unit_range current_scale_idx root_note_midi cv st
                Hosc Hlen Hw) as Hframe.
  cbv zeta in Hframe.
  destruct (frame _ _ cv st) as [st1 out]. cbn [fst snd] in Hframe.
  destruct Hframe as (Hout & Hlen1 & Hw1).
  specialize (IH st1 Hlen1 Hw1).
  destruct (AudioCallback _ _ cvs st1) as [st2 outs]. cbn [fst snd] in *.
  destruct IH as (Houts & Hlen2 & Hw2).
  split; [by constructor|]. by split.
Qed.

End Block_facts.

Lemma AudioCallback_in_unit_range_witness :
  in_unit_range
    (snd (fst (@Audio.AudioCallback bool square_wave 0 69 [0; 0.5; 1]
                 ([true; false; true; false], Audio.initial)))).
Proof.
  refine (proj2 (proj2 (@AudioCallback_in_unit_range bool square_wave 0 69
                          [0; 0.5; 1] ([true; false; true; false],
                                       Audio.initial) _ eq_refl _))).
  - intros []; cbn; lra.
  - apply initial_in_unit_range.
Defined.

(** ** The display *)

Section Display_facts.
Import Display.

Lemma lookup_map {A B : Type} (f : A -> B) (l : list A) (k : nat) :
  map f l !! k = option_map f (l !! k).
Proof.
  revert k. induction l as [|x l IH]; intros [|k]; cbn; by try apply IH.
Qed.

Lemma forallb_map {A B : Type} (p : B -> bool) (f : A -> B) (l : list A) :
  (forall x : A, p (f x) = true) -> forallb p (map f l) = true.
Proof.
  intros Hp. induction l as [|x l IH]; [done|].
  cbn [map forallb]. by rewrite Hp, IH.
Qed.

(** X15.  Every call of [UpdateDisplay] clears the display first and sends
    it last, and draws one thing in between: only text while the menu is
    shown (no line, no pixel), only the 127 lines of the waveform in the
    waveform view, only the 128 pixels in the XY view. *)
Theorem UpdateDisplay_draws_one_view (width : nat) (ui : UI.State)
    (w : Audio.Waveform) :
  exists body : list Draw,
    UpdateDisplay width ui w = [Fill false] ++ body ++ [Update] /\
    if UI.menu_active ui then forallb is_text body = true
    else
      match UI.display_mode ui with
      | UI.WAVEFORM => forallb is_line body = true /\ length body = 127%nat
      | UI.XY => forallb is_pixel body = true /\ length body = 128%nat
      end.
Proof.
  unfold UpdateDisplay.
  destruct (UI.menu_active ui).
  - eexists. split; [reflexivity|]. by destruct (UI.menu_state ui).
  - destruct (UI.display_mode ui); eexists; (split; [reflexivity|]).
    + split; [by apply forallb_map|].
      by rewrite length_map, length_seq.
    + split; [by apply forallb_map|].
      by rewrite length_map, length_seq.
Qed.

(** Truncation keeps a value between two whole bounds that are not
    negative. *)
Lemma int_of_float_between (x : R) (lo hi : Z) :
  (0 <= lo)%Z -> IZR lo <= x <= IZR hi ->
  (lo <= Quantizer.int_of_float x <= hi)%Z.
Proof.
  intros Hlo [Hx1 Hx2]. apply IZR_le in Hlo.
  unfold Quantizer.int_of_float.
  destruct (Rlt_dec x 0) as [Hneg|_]; [lra|].
  destruct (base_Int_part x) as [Hb1 Hb2]. split.
  - assert (lo - 1 < Int_part x)%Z; [|lia].
    apply lt_IZR. rewrite minus_IZR. lra.
  - apply le_IZR. lra.
Qed.

Lemma read_in_unit_range (buffer : list R) (i : nat) :
  Forall (fun x => -1 <= x <= 1) buffer -> -1 <= read buffer i <= 1.
Proof.
  intros Hall. unfold read. destruct (buffer !! i) as [x|] eqn:Hx; cbn.
  - by apply (Forall_lookup_1 _ _ _ _ Hall Hx).
  - lra.
Qed.

(** X17.  While every sample of the waveform buffers is in [-1, 1],
    whatever [UpdateDisplay] draws lies inside the display, for every
    display at least 85 wide and 53 high (the lines between y = 12 and
    y = 52, the pixels also between x = 44 and x = 84). *)
Theorem UpdateDisplay_on_screen (width : nat) (height : Z) (ui : UI.State)
    (w : Audio.Waveform) :
  in_unit_range w -> (85 <= width)%nat -> (53 <= height)%Z ->
  Forall (on_screen (Z.of_nat width) height) (UpdateDisplay width ui w).
Proof.
  intros [Hl Hr] Hwidth Hheight. unfold UpdateDisplay.
  apply Forall_app. split; [by repeat constructor|].
  apply Forall_app. split; [|by repeat constructor].
  destruct (UI.menu_active ui).
  { destruct (UI.menu_state ui); by repeat constructor. }
  assert (Hy : forall buffer i,
    Forall (fun x => -1 <= x <= 1) buffer ->
    (12 <= Quantizer.int_of_float (read buffer i * 20 + 32) <= 52)%Z).
  { intros buffer i Hb. apply int_of_float_between; [lia|].
    pose proof (read_in_unit_range buffer i Hb). lra. }
  destruct (UI.display_mode ui).
  - apply Forall_forall. intros c Hc.
    apply list_elem_of_In, in_map_iff in Hc as (i & <- & Hi).
    apply in_seq in Hi.
    unfold waveform_line, on_screen.
    change kWaveformBufferSize with 128%nat in *.
    pose proof (Hy (Audio.osc_buffer_l w) (i - 1)%nat Hl).
    pose proof (Hy (Audio.osc_buffer_l w) i Hl).
    pose proof (Nat.Div0.mul_div_le width 128) as Hq.
    set (q := (width / 128)%nat) in *. clearbody q.
    assert (Hx : forall j, (j <= 127)%nat -> (j * q < width)%nat).
    { intros j Hj. pose proof (Nat.mul_le_mono_r j 127 q Hj).
      destruct q; lia. }
    assert (H1 : (Z.of_nat ((i - 1) * q) < Z.of_nat width)%Z)
      by (apply Nat2Z.inj_lt, Hx; lia).
    assert (H2 : (Z.of_nat (i * q) < Z.of_nat width)%Z)
      by (apply Nat2Z.inj_lt, Hx; lia).
    pose proof (Nat2Z.is_nonneg ((i - 1) * q)).
    pose proof (Nat2Z.is_nonneg (i * q)).
    repeat split; lia.
  - apply Forall_forall. intros c Hc.
    apply list_elem_of_In, in_map_iff in Hc as (i & <- & Hi).
    unfold xy_pixel, on_screen.
    pose proof (Hy (Audio.osc_buffer_r w) i Hr).
    assert (44 <= Quantizer.int_of_float
                    (read (Audio.osc_buffer_l w) i * 20 + 64) <= 84)%Z.
    { apply int_of_float_between; [lia|].
      pose proof (read_in_unit_range _ i Hl). lra. }
    lia.
Qed.

Lemma UpdateDisplay_on_screen_witness :
  Forall (on_screen 128 64) (UpdateDisplay 128 UI.initial Audio.initial).
Proof.
  refine (UpdateDisplay_on_screen 128 64 UI.initial Audio.initial _ _ _).
  - apply initial_in_unit_range.
  - lia.
  - lia.
Defined.

(** The texts of the root page for the root notes 0 to 107. *)
Lemma root_texts_NoDup :
  NoDup (map (fun n => root_text (Z.of_nat n)) (seq 0 108)).
Proof. apply (bool_decide_unpack (NoDup _)). by vm_compute. Qed.

Lemma scale_names_NoDup : NoDup scale_names.
Proof. apply (bool_decide_unpack (NoDup _)). by vm_compute. Qed.

Lemma root_text_inj (r1 r2 : Z) :
  (0 <= r1 < 108)%Z -> (0 <= r2 < 108)%Z ->
  root_text r1 = root_text r2 -> r1 = r2.
Proof.
  intros H1 H2 Heq.
  assert (Hl : forall r, (0 <= r < 108)%Z ->
    map (fun n => root_text (Z.of_nat n)) (seq 0 108) !! Z.to_nat r
      = Some (root_text r)).
  { intros r Hr. rewrite lookup_map, lookup_seq_lt by lia.
    cbn [option_map Nat.add]. by rewrite Z2Nat.id by lia. }
  assert (Z.to_nat r1 = Z.to_nat r2); [|lia].
  eapply NoDup_lookup; [exact root_texts_NoDup|by apply Hl|].
  rewrite Heq. by apply Hl.
Qed.

(** X18.  The text of the menu tells the selection: two states with the
    menu shown and their selections inside the tables write the same text
    only if they show the same page and, on it, the same scale or the same
    root note. *)
Theorem menu_text_identifies_selection (width : nat) (ui1 ui2 : UI.State)
    (w1 w2 : Audio.Waveform) :
  UI.in_range ui1 -> UI.in_range ui2 ->
  UI.menu_active ui1 = true -> UI.menu_active ui2 = true ->
  written (UpdateDisplay width ui1 w1) = written (UpdateDisplay width ui2 w2) ->
  UI.menu_state ui1 = UI.menu_state ui2 /\
  match UI.menu_state ui1 with
  | UI.SCALE_SELECTION => UI.current_scale_idx ui1 = UI.current_scale_idx ui2
  | UI.ROOT_NOTE_SELECTION => UI.root_note_midi ui1 = UI.root_note_midi ui2
  end.
Proof.
  intros [Hs1 Hr1] [Hs2 Hr2] Ha1 Ha2.
  unfold UpdateDisplay. rewrite Ha1, Ha2.
  unfold kNumScales, kNumNotes, kNumOctaves in *.
  remember (nth (UI.current_scale_idx ui1) scale_names ""%string)
    as name1 eqn:Hn1.
  remember (nth (UI.current_scale_idx ui2) scale_names ""%string)
    as name2 eqn:Hn2.
  remember (root_text (UI.root_note_midi ui1)) as text1 eqn:Ht1.
  remember (root_text (UI.root_note_midi ui2)) as text2 eqn:Ht2.
  destruct (UI.menu_state ui1), (UI.menu_state ui2);
    cbn [app written flat_map]; intros Heq; try discriminate.
  - split; [done|]. injection Heq as Heq.
    assert (Hl : forall i, (i < 25)%nat ->
      scale_names !! i = Some (nth i scale_names ""%string)).
    { intros i Hi.
      destruct (lookup_lt_is_Some_2 scale_names i) as [x Hx]; [done|].
      rewrite Hx. f_equal. symmetry. by apply nth_lookup_Some. }
    eapply NoDup_lookup; [exact scale_names_NoDup|by apply Hl|].
    rewrite <- Hn1, Heq, Hn2. by apply Hl.
  - split; [done|]. injection Heq as Heq.
    apply root_text_inj; [done..|]. by rewrite <- Ht1, Heq.
Qed.

Lemma menu_text_identifies_selection_witness :
  written (UpdateDisplay 128 (UI.toggle_menu UI.initial) Audio.initial)
    = ["Menu:"; "Scale: "; "Major"]%string /\
  UI.current_scale_idx (UI.toggle_menu UI.initial)
    = UI.current_scale_idx (UI.with_display UI.XY (UI.toggle_menu UI.initial)).
Proof.
  split; [reflexivity|].
  refine (proj2 (menu_text_identifies_selection 128
                   (UI.toggle_menu UI.initial)
                   (UI.with_display UI.XY (UI.toggle_menu UI.initial))
                   Audio.initial Audio.initial _ _ eq_refl eq_refl eq_refl)).
  - split; [unfold kNumScales; cbn; lia|by cbv].
  - split; [unfold kNumScales; cbn; lia|by cbv].
Defined.

Lemma root_texts_fit :
  Forall (fun n =>
            root_text (Z.of_nat n)
            = ("Root: " +:+ nth (n mod 12)%nat note_labels "" +:+
               pretty (Z.of_nat (n / 12)%nat))%string)
    (seq 0 108).
Proof. apply (bool_decide_unpack (Forall _ _)). by vm_compute. Qed.

(** X19.  The root page never reads outside the table of note names,
    whatever the value of the root note; and for the root notes 0 to 107
    its text fits the 32 bytes of the buffer: it is "Root: ", the name of
    the note [r mod 12] and the octave [r / 12], a single digit from 0 to
    8 (so note 69, the A of 440 Hz, is shown in octave 5). *)
Theorem root_text_shape (r : Z) :
  (Z.to_nat (UI.size_t_of_int r mod kNumNotes) < length note_labels)%nat /\
  ((0 <= r < 108)%Z ->
   root_text r
     = ("Root: " +:+ nth (Z.to_nat (r mod 12)%Z) note_labels "" +:+
        pretty (r / 12)%Z)%string /\
   (0 <= r / 12 <= 8)%Z).
Proof.
  split.
  - change (length note_labels) with 12%nat. unfold kNumNotes.
    pose proof (Z.mod_pos_bound (UI.size_t_of_int r) 12 eq_refl). lia.
  - intros Hr. split.
    + pose proof root_texts_fit as Hfit. rewrite Forall_forall in Hfit.
      specialize (Hfit (Z.to_nat r)).
      rewrite Z2Nat.id in Hfit by lia.
      rewrite Hfit by (apply list_elem_of_In, in_seq; lia).
      assert (Hmod : (Z.to_nat r mod 12)%nat = Z.to_nat (r mod 12)%Z).
      { change 12%nat with (Z.to_nat 12). rewrite Z2Nat.inj_mod; lia. }
      assert (Hdiv : Z.of_nat (Z.to_nat r / 12)%nat = (r / 12)%Z).
      { change 12%nat with (Z.to_nat 12).
        rewrite <- Z2Nat.inj_div, Z2Nat.id; [done| |lia|lia].
        apply Z.div_pos; lia. }
      by rewrite Hmod, Hdiv.
    + split; [apply Z.div_pos; lia|].
      assert (r / 12 < 9)%Z; [|lia]. apply Z.div_lt_upper_bound; lia.
Qed.

Lemma root_text_shape_witness :
  root_text 69 = ("Root: " +:+ "A" +:+ "5")%string.
Proof.
  assert (Hr : (0 <= 69 < 108)%Z) by lia.
  exact (proj1 (proj2 (root_text_shape 69) Hr)).
Defined.

End Display_facts.
